(** * ConvertCode2PDF: the checkbox tree, the directory scanner and the
      conversion worker of [src/app.py]

    The development embeds the parts of [CodebaseConverterApp] that carry
    logic: the tri-state checkbox tree kept in the ttk Treeview
    ([on_treeview_click], [update_children], [update_parent_check],
    [get_checked_items], [on_treeview_open], [process_tree_queue]), the
    directory scanner ([scan_and_enqueue_children]) and the conversion
    worker ([run_conversion], with [lock_selection] and
    [on_start_conversion] in front of it).

    Python strings shown in the tree are lists of code points, so that the
    slice [text[2:]] drops the check mark and the blank after it, as in
    Python.  Paths are [string]s.  The Treeview is a rose tree; an item id
    is the list of child positions read from the item up to the root item
    (the id [''] of Tk is the empty list), so that [tree.parent] is the
    tail of the id. *)

From stdpp Require Import base list strings relations.
From Stdlib Require Import NArith Lia.

Set Warnings "-register-all".

Local Open Scope string_scope.
Local Open Scope list_scope.

(** ** Texts and check marks *)

Module Text.

(** A Python [str], as its code points. *)
Definition text := list N.

(** The code points of an ASCII string literal. *)
Fixpoint u (s : string) : text :=
  match s with
  | EmptyString => []
  | String a s' => Ascii.N_of_ascii a :: u s'
  end.

(** ["☐ "], ["☑ "] and ["☒ "]: U+2610, U+2611, U+2612, each followed by
    a blank. *)
Definition box_unchecked : text := [9744%N; 32%N].
Definition box_checked : text := [9745%N; 32%N].
Definition box_partial : text := [9746%N; 32%N].

(** [s.startswith(p)] *)
Fixpoint startswith (s p : text) {struct p} : bool :=
  match p, s with
  | [], _ => true
  | c :: p', d :: s' => (c =? d)%N && startswith s' p'
  | _ :: _, [] => false
  end.

(** The test of [update_children]: the text starts with one of the three
    marks. *)
Definition has_checkbox (s : text) : bool :=
  startswith s box_unchecked || startswith s box_checked
  || startswith s box_partial.

End Text.
Export Text.

(** ** The Treeview *)

Module Tree.

(** The tags the program puts on items. *)
Inductive tag := unchecked | checked | partial | dummy.

#[global] Instance tag_eq_dec : EqDecision tag.
Proof. solve_decision. Defined.

(** An item of the Treeview: the options [text], [values], [tags] and
    the ordered children. *)
Inductive item := Item {
  text_of : text;
  values : list string;
  tags : list tag;
  children : list item
}.

(** The Treeview is its root item [''], which has no text, values or
    tags. *)
Definition tree := item.
Definition empty_tree : tree := Item [] [] [] [].

(** Item ids: child positions from the item up to the root. *)
Definition iid := list nat.

(** [tree.parent(child)]; the parent of a top-level item, and of the
    root, is ['']. *)
Definition tree_parent (child : iid) : iid := tail child.

(** The item reached from [it] by the child positions [p], read
    downwards. *)
Fixpoint item_get (it : item) (p : list nat) {struct p} : option item :=
  match p with
  | [] => Some it
  | i :: p' =>
      match children it !! i with
      | Some c => item_get c p'
      | None => None
      end
  end.

(** In-place change of the item reached by [p]. *)
Fixpoint item_upd (f : item -> item) (it : item) (p : list nat) {struct p}
    : item :=
  match p with
  | [] => f it
  | i :: p' =>
      Item (text_of it) (values it) (tags it)
           (alter (fun c => item_upd f c p') i (children it))
  end.

(** [tree.item(id)] *)
Definition tree_item (t : tree) (id : iid) : option item :=
  item_get t (reverse id).

(** [tree.get_children(id)] *)
Definition get_children (t : tree) (id : iid) : list iid :=
  match tree_item t id with
  | Some it => (fun k => k :: id) <$> seq 0 (length (children it))
  | None => []
  end.

Definition with_text (s : text) (it : item) : item :=
  Item s (values it) (tags it) (children it).
Definition with_tags (tg : list tag) (it : item) : item :=
  Item (text_of it) (values it) tg (children it).
Definition with_children (cs : list item) (it : item) : item :=
  Item (text_of it) (values it) (tags it) cs.

(** [tree.item(id, text=s)] and [tree.item(id, tags=tg)] *)
Definition set_text (t : tree) (id : iid) (s : text) : tree :=
  item_upd (with_text s) t (reverse id).
Definition set_tags (t : tree) (id : iid) (tg : list tag) : tree :=
  item_upd (with_tags tg) t (reverse id).

(** [tree.insert(parent, 'end', text=, values=, tags=)]: the new item
    becomes the last child; its id is returned with the tree. *)
Definition tree_insert (t : tree) (parent : iid) (s : text)
    (vs : list string) (tg : list tag) : tree * iid :=
  match tree_item t parent with
  | Some p =>
      (item_upd (fun it => with_children (children it ++ [Item s vs tg []]) it)
                t (reverse parent),
       length (children p) :: parent)
  | None => (t, parent)
  end.

(** [tree.delete(id)].  With positions as ids the later siblings move
    up by one; the program deletes a single item only when it is the
    only child of its parent. *)
Definition tree_delete (t : tree) (id : iid) : tree :=
  match id with
  | [] => t
  | i :: parent =>
      item_upd (fun it => with_children (delete i (children it)) it)
               t (reverse parent)
  end.

End Tree.
Export Tree.

(** ** The tri-state check boxes *)

Module Checkbox.

(** The two states a click can ask for: [update_children] is only called
    with ['checked'] or ['unchecked']. *)
Inductive new_tag := to_checked | to_unchecked.

Definition tag_of (n : new_tag) : tag :=
  match n with to_checked => checked | to_unchecked => unchecked end.

Definition box_of (n : new_tag) : text :=
  match n with to_checked => box_checked | to_unchecked => box_unchecked end.

(** The body of the loop of [update_children] for one child, with the
    recursive call on the child's own children. *)
Fixpoint update_child (n : new_tag) (child : item) : item :=
  if has_checkbox (text_of child) then
    Item (box_of n ++ drop 2 (text_of child)) (values child) [tag_of n]
         (update_child n <$> children child)
  else child.

(** [update_children(parent, new_tag)] *)
Definition update_children (t : tree) (parent : iid) (n : new_tag) : tree :=
  item_upd (fun it => with_children (update_child n <$> children it) it)
           t (reverse parent).

(** The two counters of [update_parent_check], over the texts of the
    children. *)
Definition counts_checked (s : text) : bool :=
  startswith s box_checked || startswith s box_partial.
Definition counts_unchecked (s : text) : bool :=
  negb (counts_checked s) && startswith s box_unchecked.

Definition count_checked (texts : list text) : nat :=
  length (filter (fun s => counts_checked s = true) texts).
Definition count_unchecked (texts : list text) : nat :=
  length (filter (fun s => counts_unchecked s = true) texts).

(** The state and the tag [update_parent_check] chooses for a parent
    whose children show [texts]. *)
Definition parent_state (texts : list text) : text * tag :=
  if Nat.eqb (count_checked texts) (length texts) then (box_checked, checked)
  else if Nat.eqb (count_unchecked texts) (length texts)
       then (box_unchecked, unchecked)
  else (box_partial, partial).

(** [update_parent_check(child)] *)
Fixpoint update_parent_check (t : tree) (child : iid) : tree :=
  match child with
  | [] => t
  | _ :: parent =>
      match parent with
      | [] => t
      | _ :: _ =>
          match tree_item t parent with
          | None => t
          | Some p =>
              let '(new_state, new_tag) := parent_state (text_of <$> children p) in
              let current_text := text_of p in
              let new_text := new_state ++ drop 2 current_text in
              let t1 := set_text t parent new_text in
              let t2 := set_tags t1 parent [new_tag] in
              update_parent_check t2 parent
          end
      end
  end.

(** The new state a click asks for, from the current text of the item;
    [None] when the item carries no check box. *)
Definition click_target (current_text : text) : option new_tag :=
  if startswith current_text box_unchecked then Some to_checked
  else if startswith current_text box_checked then Some to_unchecked
  else if startswith current_text box_partial then Some to_checked
  else None.

(** [on_treeview_click(event)], for a click on the text of the row
    [item] ([identify_row] gives [''] when there is no row). *)
Definition on_treeview_click (t : tree) (item : iid) : tree :=
  match item with
  | [] => t
  | _ :: _ =>
      match tree_item t item with
      | None => t
      | Some it =>
          let current_text := text_of it in
          match click_target current_text with
          | None => t
          | Some n =>
              let t1 := set_text t item (box_of n ++ drop 2 current_text) in
              let t2 := set_tags t1 item [tag_of n] in
              let t3 := update_children t2 item n in
              update_parent_check t3 item
          end
      end
  end.

End Checkbox.
Export Checkbox.

(** ** Flattening the selection *)

Module Selection.

(** [s.endswith(suffix)] on paths. *)
Definition endswith (s suffix : string) : bool :=
  let n := String.length s in
  let m := String.length suffix in
  if (m <=? n)%nat then String.eqb (String.substring (n - m) m s) suffix
  else false.

Section Flatten.

(** [os.path.isfile], as the file system answers when the selection
    is flattened. *)
Variable isfile : string -> bool.

(** The inner function [recurse(item)] of [get_checked_items]; the
    list [checked_items] it appends to is passed along. *)
Fixpoint recurse (it : item) (checked_items : list string) : list string :=
  match values it with
  | [] => checked_items
  | abspath :: _ =>
      let checked_items :=
        if bool_decide (checked ∈ tags it) && isfile abspath then
          if negb (endswith abspath ".pdf") then checked_items ++ [abspath]
          else checked_items
        else checked_items in
      fold_left (fun acc child => recurse child acc) (children it)
                checked_items
  end.

(** [get_checked_items()] *)
Definition get_checked_items (t : tree) : list string :=
  fold_left (fun acc child => recurse child acc) (children t) [].

End Flatten.

End Selection.
Export Selection.

(** ** Events handed to the interaction thread *)

Module Events.

Inductive format := pdf | txt.

#[global] Instance format_eq_dec : EqDecision format.
Proof. solve_decision. Defined.

(** The texts put on the queue under ['log'], without the text of the
    exception some of them end with. *)
Inductive log_msg :=
  | Conversion_stopped_by_user
  | Converted_to (f : format) (dest : string)
  | Failed_to_convert (f : format) (source : string)
  | Failed_to_convert_unicode (source : string)
  | Permission_denied (abspath : string)
  | Error_scanning (abspath : string)
  | No_eligible_found (abspath : string)
  | Error_starting_scan_thread
  | Error_processing_tree_queue
  | Process_stopped_by_user.

(** The tuples put on [gui_queue]. *)
Inductive gui_event :=
  | Ev_log (m : log_msg)
  | Ev_success (n : nat)
  | Ev_fail (n : nat)
  | Ev_progress (n : nat)
  | Ev_message_all_converted
  | Ev_buttons_enable.

(** The tuples put on [tree_queue]: [('directory', path, None, parent)]
    and [('file', path, None, parent)]. *)
Inductive entry_kind := directory | file.

Record tree_entry := Tree_entry {
  te_kind : entry_kind;
  te_path : string;
  te_parent : iid
}.

End Events.
Export Events.

(** ** Lazy loading: expanding a node and ingesting scan results *)

Module Lazy.

(** A scan thread to start: [scan_and_enqueue_children(abspath, node)]. *)
Definition scan_request := (string * iid)%type.

(** [on_treeview_open(event)] for the focused item [node].  [start_ok]
    says whether the scan thread could be started.  An item without
    values makes [values[0]] fail after the placeholder is gone. *)
Definition on_treeview_open (start_ok : bool) (t : tree) (node : iid)
    : tree * option scan_request * list gui_event :=
  match tree_item t node with
  | None => (t, None, [])
  | Some it =>
      match children it with
      | [c] =>
          if bool_decide (dummy ∈ tags c) then
            let t1 := tree_delete t (0 :: node) in
            match values it with
            | [] => (t1, None, [])
            | abspath :: _ =>
                if start_ok then (t1, Some (abspath, node), [])
                else (t1, None, [Ev_log Error_starting_scan_thread])
            end
          else (t, None, [])
      | _ => (t, None, [])
      end
  end.

Section Ingest.

(** [os.path.basename] *)
Variable basename : string -> string.

(** One item of [tree_queue] handled by [process_tree_queue]; [None]
    when the parent is not in the tree and [tree.insert] raises. *)
Definition process_tree_entry (t : tree) (e : tree_entry) : option tree :=
  match tree_item t (te_parent e) with
  | None => None
  | Some _ =>
      match te_kind e with
      | directory =>
          let '(t1, node) :=
            tree_insert t (te_parent e)
              (box_unchecked ++ u (basename (te_path e)))
              [te_path e] [unchecked] in
          Some (tree_insert t1 node (u "Loading...") [""] [dummy]).1
      | file =>
          Some (tree_insert t (te_parent e)
                  (box_unchecked ++ u (basename (te_path e)))
                  [te_path e] [unchecked]).1
      end
  end.

(** [process_tree_queue()]: the queue is drained until it is empty or
    an insertion raises, which is logged and leaves the rest of the
    queue for the next tick. *)
Fixpoint process_tree_queue (t : tree) (queue : list tree_entry)
    : tree * list tree_entry * list gui_event :=
  match queue with
  | [] => (t, [], [])
  | e :: rest =>
      match process_tree_entry t e with
      | Some t' => process_tree_queue t' rest
      | None => (t, rest, [Ev_log Error_processing_tree_queue])
      end
  end.

End Ingest.

End Lazy.
Export Lazy.

(** ** The directory scanner *)

Module Scanner.

(** The exceptions the handlers of [scan_and_enqueue_children] tell
    apart: [PermissionError] and any other [Exception]. *)
Inductive exn := PermissionError | OtherError.

Inductive result (A : Type) :=
  | Ok (a : A)
  | Raise (e : exn).
Arguments Ok {A} a.
Arguments Raise {A} e.

(** An [os.DirEntry]: its path and what [is_dir] and [is_file] (both
    with [follow_symlinks=False]) answer or raise. *)
Record dir_entry := Dir_entry {
  entry_path : string;
  entry_is_dir : result bool;
  entry_is_file : result bool
}.

(** The local state of one scan. *)
Record scan_state := Scan_state {
  tree_queue : list tree_entry;
  enqueued : bool
}.

Section Scan.

(** [stop_event.is_set()], for the reads of this scan in order. *)
Variable stop_is_set : nat -> bool.

Variable parent_node : iid.

(** The loop over the sorted entries, from the read number [k] on;
    the second component is the exception that ended it, if any. *)
Fixpoint scan_entries (entries : list dir_entry) (k : nat) (st : scan_state)
    : scan_state * option exn :=
  match entries with
  | [] => (st, None)
  | entry :: rest =>
      if stop_is_set k then (st, None)
      else
        match entry_is_dir entry with
        | Raise e => (st, Some e)
        | Ok true =>
            scan_entries rest (S k)
              (Scan_state
                 (tree_queue st ++
                    [Tree_entry directory (entry_path entry) parent_node])
                 true)
        | Ok false =>
            match entry_is_file entry with
            | Raise e => (st, Some e)
            | Ok true =>
                scan_entries rest (S k)
                  (Scan_state
                     (tree_queue st ++
                        [Tree_entry file (entry_path entry) parent_node])
                     true)
            | Ok false => scan_entries rest (S k) st
            end
        end
  end.

(** [scan_and_enqueue_children(abspath, parent_node)].  [listing] is
    what [sorted(os.scandir(abspath), key=...)] gives: the entries in
    case-insensitive name order, or the exception raised on the way.
    The result is what was put on [tree_queue] and on [gui_queue]. *)
Definition scan_and_enqueue_children (abspath : string)
    (listing : result (list dir_entry))
    : list tree_entry * list gui_event :=
  let '(st, raised) :=
    match listing with
    | Raise e => (Scan_state [] false, Some e)
    | Ok entries => scan_entries entries 0 (Scan_state [] false)
    end in
  let gui :=
    match raised with
    | Some PermissionError => [Ev_log (Permission_denied abspath)]
    | Some OtherError => [Ev_log (Error_scanning abspath)]
    | None => []
    end in
  let gui :=
    if negb (enqueued st) then gui ++ [Ev_log (No_eligible_found abspath)]
    else gui in
  (tree_queue st, gui).

End Scan.

End Scanner.
Export Scanner.

(** ** The conversion worker *)

Module Worker.

(** How the body of the [try] for the text copy ends. *)
Inductive txt_outcome := Txt_ok | Txt_unicode_error | Txt_error.

(** What the worker reads from outside while it runs.  The iteration of
    the loop is [idx], counted from 0. *)
Record world := World {
  (** [stop_event.is_set()]: what the worker reads when it has read the
      flag [r] times before and has attempted [d] conversion tasks *)
  stop_is_set : nat -> nat -> bool;
  (** [os.path.isdir(source_file)] *)
  isdir : nat -> string -> bool;
  (** [pdf_var.get()] and [txt_var.get()] *)
  pdf_var : nat -> bool;
  txt_var : nat -> bool;
  (** the destination path built from [root_dir], [dest_dir] and the
      extension *)
  dest_path : format -> string -> string;
  (** whether the body of the [try] for the PDF ends without an
      exception, and how the one for the text copy ends *)
  pdf_try : nat -> string -> bool;
  txt_try : nat -> string -> txt_outcome
}.

(** The state of the worker: its two counters, what it has put on
    [gui_queue] (oldest first), and the tasks it has attempted, that is
    the [try] blocks it has entered, in order. *)
Record worker := Worker_state {
  success_count : nat;
  fail_count : nat;
  gui_queue : list gui_event;
  attempted : list (string * format)
}.

Definition init_worker : worker := Worker_state 0 0 [] [].

Definition put (st : worker) (e : gui_event) : worker :=
  Worker_state (success_count st) (fail_count st) (gui_queue st ++ [e])
               (attempted st).

Definition attempt (st : worker) (source_file : string) (f : format) : worker :=
  Worker_state (success_count st) (fail_count st) (gui_queue st)
               (attempted st ++ [(source_file, f)]).

(** The two branches every task ends in. *)
Definition succeed (st : worker) (m : log_msg) : worker :=
  let success_count := S (success_count st) in
  let st := Worker_state success_count (fail_count st) (gui_queue st)
                         (attempted st) in
  put (put st (Ev_success success_count)) (Ev_log m).

Definition fail (st : worker) (m : log_msg) : worker :=
  let fail_count := S (fail_count st) in
  let st := Worker_state (success_count st) fail_count (gui_queue st)
                         (attempted st) in
  put (put st (Ev_fail fail_count)) (Ev_log m).

Section Run.

Variable w : world.

(** The formats of one iteration. *)
Definition formats_at (idx : nat) : list format :=
  let formats := (if pdf_var w idx then [pdf] else [])
                 ++ (if txt_var w idx then [txt] else []) in
  match formats with
  | [] => [pdf]
  | _ :: _ => formats
  end.

(** [if 'pdf' in formats: try: ... except Exception: ...] *)
Definition convert_pdf (idx : nat) (source_file : string) (st : worker)
    : worker :=
  let st := attempt st source_file pdf in
  if pdf_try w idx source_file
  then succeed st (Converted_to pdf (dest_path w pdf source_file))
  else fail st (Failed_to_convert pdf source_file).

(** [if 'txt' in formats: try: ... except UnicodeDecodeError: ...
    except Exception: ...] *)
Definition convert_txt (idx : nat) (source_file : string) (st : worker)
    : worker :=
  let st := attempt st source_file txt in
  match txt_try w idx source_file with
  | Txt_ok => succeed st (Converted_to txt (dest_path w txt source_file))
  | Txt_unicode_error => fail st (Failed_to_convert_unicode source_file)
  | Txt_error => fail st (Failed_to_convert txt source_file)
  end.

(** The body of the loop for a source that is not a directory, after
    the stop flag was read. *)
Definition convert_file (idx : nat) (source_file : string) (st : worker)
    : worker :=
  let formats := formats_at idx in
  let st := if bool_decide (pdf ∈ formats)
            then convert_pdf idx source_file st else st in
  let st := if bool_decide (txt ∈ formats)
            then convert_txt idx source_file st else st in
  put st (Ev_progress 1).

(** The [for] loop of [run_conversion] from the iteration [idx] on;
    the second component is the number of reads of the stop flag made
    when the loop is left. *)
Fixpoint conversion_loop (selected_items : list string) (idx : nat)
    (st : worker) : worker * nat :=
  match selected_items with
  | [] => (st, idx)
  | source_file :: rest =>
      if stop_is_set w idx (length (attempted st)) then
        (put st (Ev_log Conversion_stopped_by_user), S idx)
      else if isdir w idx source_file then
        conversion_loop rest (S idx) st
      else
        conversion_loop rest (S idx) (convert_file idx source_file st)
  end.

(** [run_conversion(selected_items, dest_dir)]; [dest_dir] is part of
    [dest_path]. *)
Definition run_conversion (selected_items : list string) : worker :=
  let '(st, reads) := conversion_loop selected_items 0 init_worker in
  let st := if negb (stop_is_set w reads (length (attempted st)))
            then put st Ev_message_all_converted else st in
  put st Ev_buttons_enable.

End Run.

(** The controls and labels [lock_selection] and [on_start_conversion]
    change. *)
Record controls := Controls {
  lock_button : bool;
  select_button : bool;
  start_button : bool;
  stop_button : bool;
  click_bound : bool;
  selected_label : nat;
  progress_maximum : nat
}.

(** [lock_selection()]: nothing changes when no file is checked. *)
Definition lock_selection (isfile : string -> bool) (t : tree)
    (c : controls) : controls :=
  let selected_items := get_checked_items isfile t in
  match selected_items with
  | [] => c
  | _ :: _ =>
      Controls false false true (stop_button c) false
               (length selected_items) (progress_maximum c)
  end.

(** [on_start_conversion()]: [confirm] is the answer to the
    confirmation dialog and [dest_dir] the folder chosen, if any.  The
    second component holds the arguments of the worker thread when one
    is started. *)
Definition on_start_conversion (isfile : string -> bool) (t : tree)
    (confirm : bool) (dest_dir : option string) (c : controls)
    : controls * option (list string * string) :=
  let selected_items := get_checked_items isfile t in
  match selected_items with
  | [] => (c, None)
  | _ :: _ =>
      if negb confirm then (c, None)
      else
        match dest_dir with
        | None => (c, None)
        | Some d =>
            (Controls false false false true (click_bound c)
                      (selected_label c) (length selected_items),
             Some (selected_items, d))
        end
  end.

End Worker.
Export Worker.

(** ** Notions used to state the properties *)

Module Props.

(** The check state an item shows: the tag that goes with the mark its
    text starts with. *)
Definition mark (s : text) : option tag :=
  if startswith s box_unchecked then Some unchecked
  else if startswith s box_checked then Some checked
  else if startswith s box_partial then Some partial
  else None.

(** What is read off an item without looking below it. *)
Definition label (it : item) : text * list string * list tag :=
  (text_of it, values it, tags it).

(** A loaded directory: an item with a check box, at least one child,
    and a check box on every child. *)
Definition loaded_directory (it : item) : Prop :=
  has_checkbox (text_of it) = true /\
  children it <> [] /\
  Forall (fun c => has_checkbox (text_of c) = true) (children it).

(** The item follows the rule of [update_parent_check]. *)
Definition follows_rule (it : item) : Prop :=
  loaded_directory it ->
  mark (text_of it) = Some (parent_state (text_of <$> children it)).2 /\
  tags it = [(parent_state (text_of <$> children it)).2].

#[global] Instance loaded_directory_dec it : Decision (loaded_directory it).
Proof. unfold loaded_directory. apply _. Defined.

#[global] Instance follows_rule_dec it : Decision (follows_rule it).
Proof. unfold follows_rule. apply _. Defined.

(** The rule holds at [it] and everywhere below it. *)
Fixpoint consistentb (it : item) : bool :=
  bool_decide (follows_rule it) && forallb consistentb (children it).

(** Every check box from [it] on is unchecked, as in a tree that was
    loaded and not clicked yet. *)
Fixpoint all_unchecked (it : item) : bool :=
  (if has_checkbox (text_of it)
   then bool_decide (mark (text_of it) = Some unchecked /\
                     tags it = [unchecked])
   else true)
  && forallb all_unchecked (children it).

(** The rule in the words of the specification: checked when every
    child is checked, unchecked when every child is unchecked, partial
    otherwise. *)
Definition claimed_state (marks : list (option tag)) : tag :=
  if forallb (fun m => bool_decide (m = Some checked)) marks then checked
  else if forallb (fun m => bool_decide (m = Some unchecked)) marks
       then unchecked
  else partial.

(** Every item of the tree other than the one at [q] follows the rule. *)
Definition consistent_except (q : list nat) (t : tree) : Prop :=
  forall p it, p <> [] -> p <> q -> item_get t p = Some it -> follows_rule it.

Definition consistent (t : tree) : Prop := consistent_except [] t.

(** Every item met below [it] along [r] carries a check box: the items
    at the end of such paths are the loaded descendants of [it]. *)
Fixpoint boxes_along (it : item) (r : list nat) {struct r} : Prop :=
  match r with
  | [] => True
  | i :: r' =>
      match children it !! i with
      | Some c => has_checkbox (text_of c) = true /\ boxes_along c r'
      | None => False
      end
  end.

(** A sequence of clicks, the first of the list first. *)
Definition clicks (t : tree) (items : list iid) : tree :=
  fold_left on_treeview_click items t.

(** The items [recurse] visits from [it] on, in the order it visits
    them: an item first, then what is below its children in their order;
    an item without values is left at once, with all below it. *)
Fixpoint visit (it : item) : list item :=
  match values it with
  | [] => []
  | _ :: _ => it :: flat_map visit (children it)
  end.

(** All the items from [it] on, depth first, a parent before its
    children. *)
Fixpoint preorder (it : item) : list item :=
  it :: flat_map preorder (children it).

(** The path an item contributes to the selection: its first value, when
    the item is tagged checked and the path is an existing file that does
    not end in [.pdf].  The children of the item play no part. *)
Definition selected_path (isfile : string -> bool) (it : item)
    : option string :=
  match values it with
  | [] => None
  | abspath :: _ =>
      if bool_decide (checked ∈ tags it) && isfile abspath
         && negb (endswith abspath ".pdf")
      then Some abspath else None
  end.




(** What the scanner makes of one entry: the item it puts on
    [tree_queue], if any, and the exception the entry raises, if any. *)
Definition entry_of (parent_node : iid) (e : dir_entry) : option tree_entry :=
  match entry_is_dir e with
  | Ok true => Some (Tree_entry directory (entry_path e) parent_node)
  | Ok false =>
      match entry_is_file e with
      | Ok true => Some (Tree_entry file (entry_path e) parent_node)
      | _ => None
      end
  | Raise _ => None
  end.

Definition entry_raises (e : dir_entry) : option exn :=
  match entry_is_dir e with
  | Raise x => Some x
  | Ok true => None
  | Ok false =>
      match entry_is_file e with
      | Raise x => Some x
      | Ok _ => None
      end
  end.

Definition error_log (abspath : string) (e : exn) : log_msg :=
  match e with
  | PermissionError => Permission_denied abspath
  | OtherError => Error_scanning abspath
  end.

(** A conversion task: the iteration, the source file and the format. *)
Definition task : Type := nat * string * format.

Definition task_pair (x : task) : string * format := (x.1.2, x.2).

(** The tasks of the iterations from [idx] on, in the order of the
    selection, the PDF of a file before its text copy; a source that is a
    directory has none. *)
Fixpoint tasks_from (w : world) (idx : nat) (items : list string) : list task :=
  match items with
  | [] => []
  | source_file :: rest =>
      (if isdir w idx source_file then []
       else (fun f => (idx, source_file, f)) <$> formats_at w idx)
      ++ tasks_from w (S idx) rest
  end.

(** The sources that are not directories. *)
Fixpoint files_from (w : world) (idx : nat) (items : list string)
    : list string :=
  match items with
  | [] => []
  | source_file :: rest =>
      (if isdir w idx source_file then [] else [source_file])
      ++ files_from w (S idx) rest
  end.

Definition task_ok (w : world) (x : task) : bool :=
  match x with
  | (idx, source_file, pdf) => pdf_try w idx source_file
  | (idx, source_file, txt) =>
      match txt_try w idx source_file with
      | Txt_ok => true
      | _ => false
      end
  end.

Definition task_log (w : world) (x : task) : log_msg :=
  match x with
  | (idx, source_file, pdf) =>
      if pdf_try w idx source_file
      then Converted_to pdf (dest_path w pdf source_file)
      else Failed_to_convert pdf source_file
  | (idx, source_file, txt) =>
      match txt_try w idx source_file with
      | Txt_ok => Converted_to txt (dest_path w txt source_file)
      | Txt_unicode_error => Failed_to_convert_unicode source_file
      | Txt_error => Failed_to_convert txt source_file
      end
  end.

Definition count_ok (w : world) (xs : list task) : nat :=
  length (filter (fun x => task_ok w x = true) xs).
Definition count_failed (w : world) (xs : list task) : nat :=
  length (filter (fun x => task_ok w x = false) xs).

(** What is read off the queue: the success-or-failure events, the log
    texts, and the increments of the progress bar. *)
Definition outcomes (q : list gui_event) : list bool :=
  omap (fun e => match e with
                 | Ev_success _ => Some true
                 | Ev_fail _ => Some false
                 | _ => None
                 end) q.

Definition logs (q : list gui_event) : list log_msg :=
  omap (fun e => match e with Ev_log m => Some m | _ => None end) q.

Definition progress_steps (q : list gui_event) : list nat :=
  omap (fun e => match e with Ev_progress n => Some n | _ => None end) q.

(** The sum of the increments handed to [progress_bar.step] while the
    events of [q] are drained.  This is not the value the bar shows: see
    [bar_value]. *)
Definition progress_value (q : list gui_event) : nat :=
  foldr Nat.add 0 (progress_steps q).

(** [Progressbar.step(amount)] of Tk's ttk, a library the repository
    calls and does not contain.  The bar is created with
    [mode='determinate'], and in that mode Tk sets the value to
    [fmod(value + amount, maximum)]: it wraps when it reaches the
    maximum.  The values and the amounts here are whole numbers.  For a
    maximum of zero, where Tk's [fmod] gives no number, the value is left
    at the sum; [on_start_conversion] sets the maximum to the length of
    a selection that is not empty. *)
Definition Progressbar_step (maximum value amount : nat) : nat :=
  (value + amount) mod maximum.

(** [progress_bar['value']] after [process_gui_queue] has drained the
    events of [q], the bar having been set to [maximum] and to the value
    0, as [on_start_conversion] does. *)
Definition bar_value (maximum : nat) (q : list gui_event) : nat :=
  fold_left (Progressbar_step maximum) (progress_steps q) 0.

(** From [st] to [st'] the worker attempted the tasks [xs], reported each
    of them once, and finished [files] files. *)
Definition extends (w : world) (xs : list task) (files : nat)
    (st st' : worker) : Prop :=
  attempted st' = attempted st ++ (task_pair <$> xs) /\
  success_count st' = success_count st + count_ok w xs /\
  fail_count st' = fail_count st + count_failed w xs /\
  outcomes (gui_queue st') = outcomes (gui_queue st) ++ (task_ok w <$> xs) /\
  logs (gui_queue st') = logs (gui_queue st) ++ (task_log w <$> xs) /\
  progress_steps (gui_queue st') =
    progress_steps (gui_queue st) ++ replicate files 1.

(** The stop flag is never found set. *)
Definition never_stops (w : world) : Prop :=
  forall r d, stop_is_set w r d = false.

(** The same world without the stop button. *)
Definition never_stop (w : world) : world :=
  World (fun _ _ => false) (isdir w) (pdf_var w) (txt_var w) (dest_path w)
        (pdf_try w) (txt_try w).

(** The same world in which every task succeeds. *)
Definition all_succeed (w : world) : world :=
  World (stop_is_set w) (isdir w) (pdf_var w) (txt_var w) (dest_path w)
        (fun _ _ => true) (fun _ _ => Txt_ok).

(** The stop flag is set when [k] tasks have been attempted, and stays
    set. *)
Definition stop_set_after (k : nat) (w : world) : Prop :=
  forall r d, stop_is_set w r d = bool_decide (k <= d).

End Props.
Export Props.

(** ** A small tree to run the operations on *)

Module Examples.

(** Items as [process_tree_queue] inserts them, with their children
    already loaded. *)
Definition file_item (name : string) : item :=
  Item (box_unchecked ++ u name) [name] [unchecked] [].
Definition dir_item (name : string) (cs : list item) : item :=
  Item (box_unchecked ++ u name) [name] [unchecked] cs.
Definition loading_item : item := Item (u "Loading...") [""] [dummy] [].

(** [R] holds the directory [R/D] with the files [a.py] and [b.txt], and
    the file [R/c.pdf]. *)
Definition example_tree : tree :=
  Item [] [] []
    [dir_item "R"
       [dir_item "R/D" [file_item "R/D/a.py"; file_item "R/D/b.txt"];
        file_item "R/c.pdf"]].

(** A file system in which [R] and [R/D] are directories and every other
    path is a file. *)
Definition example_isfile (a : string) : bool :=
  negb (String.eqb a "R" || String.eqb a "R/D").
Definition example_isdir (a : string) : bool := negb (example_isfile a).

(** The same tree after a click on [R]: everything is checked. *)
Definition checked_tree : tree := on_treeview_click example_tree [0].

(** [R] not yet expanded. *)
Definition unloaded_tree : tree :=
  Item [] [] [] [dir_item "R" [loading_item]].

(** A world in which both formats are asked for, nothing is a directory,
    the text copy of [R/D/b.txt] fails to decode and every other task
    succeeds; the stop flag is set after [k] tasks. *)
Definition example_world (k : nat) : world :=
  World (fun _ d => bool_decide (k <= d))
        (fun _ _ => false)
        (fun _ => true) (fun _ => true)
        (fun f a => match f with pdf => a +:+ ".pdf" | txt => a +:+ ".txt" end)
        (fun _ _ => true)
        (fun _ a => if String.eqb a "R/D/b.txt" then Txt_unicode_error
                    else Txt_ok).

(** The file system after [R/D/b.txt] was removed. *)
Definition example_isfile_later (a : string) : bool :=
  example_isfile a && negb (String.eqb a "R/D/b.txt").

(** The controls once a source folder is selected. *)
Definition example_controls : controls :=
  Controls true false false false true 0 0.

(** The same tree after a click on [a.py]: [R/D] and [R] show
    partial. *)
Definition partial_tree : tree := on_treeview_click example_tree [0; 0; 0].

End Examples.
Export Examples.


(** ** The interaction surface: folder selection, restart, stop and the
    draining of the event queue *)

Module Application.

(** [populate_treeview()]: whatever the tree held is deleted; the root
    node is inserted with the placeholder below it.  [basename] is
    [os.path.basename]; an empty base name gives way to the path. *)
Definition populate_treeview (basename : string -> string)
    (root_dir : string) : tree :=
  let root_name := basename root_dir in
  let root_name := if String.eqb root_name "" then root_dir else root_name in
  let '(t1, root_node) :=
    tree_insert empty_tree [] (box_unchecked ++ u root_name)
                [root_dir] [unchecked] in
  (tree_insert t1 root_node (u "Loading...") [""] [dummy]).1.

(** What [process_gui_queue] writes to: the two totals, the log area, the
    increments handed to [progress_bar.step] (their sum; the arithmetic of
    the widget is Tk's) and the number of dialogs shown. *)
Record display := Display {
  success_label : nat;
  fail_label : nat;
  log_area : list log_msg;
  stepped : nat;
  dialogs : nat
}.

(** One task taken from [gui_queue] by [process_gui_queue]. *)
Definition process_gui_event (cd : controls * display) (task : gui_event)
    : controls * display :=
  let '(c, d) := cd in
  match task with
  | Ev_success n =>
      (c, Display n (fail_label d) (log_area d) (stepped d) (dialogs d))
  | Ev_fail n =>
      (c, Display (success_label d) n (log_area d) (stepped d) (dialogs d))
  | Ev_log m =>
      (c, Display (success_label d) (fail_label d) (log_area d ++ [m])
                  (stepped d) (dialogs d))
  | Ev_progress n =>
      (c, Display (success_label d) (fail_label d) (log_area d)
                  (stepped d + n) (dialogs d))
  | Ev_message_all_converted =>
      (c, Display (success_label d) (fail_label d) (log_area d) (stepped d)
                  (S (dialogs d)))
  | Ev_buttons_enable =>
      (Controls (lock_button c) true false false (click_bound c)
                (selected_label c) (progress_maximum c), d)
  end.

(** [process_gui_queue()]: every task queued is handled, oldest first. *)
Definition process_gui_queue (c : controls) (d : display)
    (queue : list gui_event) : controls * display :=
  fold_left process_gui_event queue (c, d).

(** The state of the application: the tree, the controls, the display,
    the stop flag, what waits on [gui_queue], and the arguments of the
    conversion threads started so far. *)
Record app_state := Make_app {
  app_tree : tree;
  app_controls : controls;
  app_display : display;
  root_dir : option string;
  stop_event : bool;
  gui_pending : list gui_event;
  started : list (list string * string)
}.

(** The application after [__init__]. *)
Definition init_app : app_state :=
  Make_app empty_tree (Controls false true false false true 0 0)
           (Display 0 0 [] 0 0) None false [] [].

(** [reset_state()] *)
Definition reset_state (a : app_state) : app_state :=
  Make_app empty_tree
           (Controls false true false false true 0 0)
           (Display 0 0 [] (stepped (app_display a)) (dialogs (app_display a)))
           None (stop_event a) (gui_pending a) (started a).

(** [select_folder()]; [selected_dir] is the answer of the dialog, [None]
    when it was cancelled. *)
Definition select_folder (basename : string -> string)
    (selected_dir : option string) (a : app_state) : app_state :=
  match selected_dir with
  | None => a
  | Some dir =>
      let a := reset_state a in
      Make_app (populate_treeview basename dir)
               (Controls true false (start_button (app_controls a))
                         (stop_button (app_controls a))
                         (click_bound (app_controls a))
                         (selected_label (app_controls a))
                         (progress_maximum (app_controls a)))
               (app_display a) (Some dir) (stop_event a) (gui_pending a)
               (started a)
  end.

(** [restart_app()] *)
Definition restart_app (confirm : bool) (a : app_state) : app_state :=
  if confirm then reset_state a else a.

(** [stop_conversion()] *)
Definition stop_conversion (a : app_state) : app_state :=
  let c := app_controls a in
  Make_app (app_tree a)
           (Controls false true false false (click_bound c)
                     (selected_label c) (progress_maximum c))
           (app_display a) (root_dir a) true
           (gui_pending a ++ [Ev_log Process_stopped_by_user]) (started a).

(** [lock_selection()] and [on_start_conversion()] on the application;
    starting clears the log and the two totals, clears the stop flag and
    starts the worker thread. *)
Definition app_lock (isfile : string -> bool) (a : app_state) : app_state :=
  Make_app (app_tree a) (lock_selection isfile (app_tree a) (app_controls a))
           (app_display a) (root_dir a) (stop_event a) (gui_pending a)
           (started a).

Definition app_start (isfile : string -> bool) (confirm : bool)
    (dest_dir : option string) (a : app_state) : app_state :=
  match on_start_conversion isfile (app_tree a) confirm dest_dir
                            (app_controls a) with
  | (c, Some args) =>
      Make_app (app_tree a) c
               (Display 0 0 [] (stepped (app_display a))
                        (dialogs (app_display a)))
               (root_dir a) false (gui_pending a) (started a ++ [args])
  | (_, None) => a
  end.

(** The timer tick that drains [gui_queue]. *)
Definition app_gui_tick (a : app_state) : app_state :=
  let '(c, d) := process_gui_queue (app_controls a) (app_display a)
                                   (gui_pending a) in
  Make_app (app_tree a) c d (root_dir a) (stop_event a) [] (started a).

(** What can happen to the application.  The two menu commands are always
    there; a button calls its command only while it is enabled, and a
    click reaches [on_treeview_click] only while the binding is in
    place.  A worker or a scanner may put events on [gui_queue], and the
    tree timer ingests an item of [tree_queue]. *)
Inductive action :=
| Menu_select_folder (selected_dir : option string)
| Menu_restart (confirm : bool)
| Button_select_folder (selected_dir : option string)
| Button_lock
| Button_start (confirm : bool) (dest_dir : option string)
| Button_stop
| Tree_click (item : iid)
| Tree_open (start_ok : bool) (node : iid)
| Tree_tick (e : tree_entry)
| Thread_puts (events : list gui_event)
| Gui_tick.

Definition with_tree (t : tree) (a : app_state) : app_state :=
  Make_app t (app_controls a) (app_display a) (root_dir a) (stop_event a)
           (gui_pending a) (started a).

Section Step.

Variable basename : string -> string.
Variable isfile : string -> bool.

Definition app_step (a : app_state) (x : action) : app_state :=
  match x with
  | Menu_select_folder dir => select_folder basename dir a
  | Menu_restart confirm => restart_app confirm a
  | Button_select_folder dir =>
      if select_button (app_controls a) then select_folder basename dir a
      else a
  | Button_lock =>
      if lock_button (app_controls a) then app_lock isfile a else a
  | Button_start confirm dest_dir =>
      if start_button (app_controls a)
      then app_start isfile confirm dest_dir a else a
  | Button_stop =>
      if stop_button (app_controls a) then stop_conversion a else a
  | Tree_click item =>
      if click_bound (app_controls a)
      then with_tree (on_treeview_click (app_tree a) item) a else a
  | Tree_open start_ok node =>
      let '(t, _, events) := on_treeview_open start_ok (app_tree a) node in
      Make_app t (app_controls a) (app_display a) (root_dir a)
               (stop_event a) (gui_pending a ++ events) (started a)
  | Tree_tick e =>
      match process_tree_entry basename (app_tree a) e with
      | Some t => with_tree t a
      | None =>
          Make_app (app_tree a) (app_controls a) (app_display a) (root_dir a)
                   (stop_event a)
                   (gui_pending a ++ [Ev_log Error_processing_tree_queue])
                   (started a)
      end
  | Thread_puts events =>
      Make_app (app_tree a) (app_controls a) (app_display a) (root_dir a)
               (stop_event a) (gui_pending a ++ events) (started a)
  | Gui_tick => app_gui_tick a
  end.

Definition app_run (a : app_state) (xs : list action) : app_state :=
  fold_left app_step xs a.

End Step.

End Application.
Export Application.

(** ** Notions used to state further properties *)

Module MoreProps.

(** What a click may do to one item: its values, the text after the mark
    and the number of its children stay; either its text and tags stay
    too, or it shows a mark with the tag of that mark, partial only if it
    has children. *)
Definition click_related (it it' : item) : Prop :=
  values it' = values it /\
  drop 2 (text_of it') = drop 2 (text_of it) /\
  length (children it') = length (children it) /\
  ((text_of it' = text_of it /\ tags it' = tags it) \/
   exists m, mark (text_of it') = Some m /\ tags it' = [m] /\
             (m = partial -> children it <> [])).

(** Every item of [c'] stands where an item of [c] stood and is related
    to it in that way. *)
Definition click_sim (c c' : item) : Prop :=
  forall r d', item_get c' r = Some d' ->
    exists d, item_get c r = Some d /\ click_related d d'.

(** The item [process_tree_queue] inserts for an entry. *)
Definition new_item (basename : string -> string) (e : tree_entry) : item :=
  match te_kind e with
  | directory =>
      Item (box_unchecked ++ u (basename (te_path e))) [te_path e] [unchecked]
           [Item (u "Loading...") [""] [dummy] []]
  | file =>
      Item (box_unchecked ++ u (basename (te_path e))) [te_path e] [unchecked]
           []
  end.

(** The two totals the display shows after the events of [q], from [s]
    and [f]: the number the last success event carried and the number the
    last failure event carried. *)
Definition totals (q : list gui_event) (s f : nat) : nat * nat :=
  fold_left (fun sf e => match e with
                         | Ev_success n => (n, sf.2)
                         | Ev_fail n => (sf.1, n)
                         | _ => sf
                         end) q (s, f).

(** The worker's counters are the numbers its last events carry. *)
Definition totals_agree (st : worker) : Prop :=
  totals (gui_queue st) 0 0 = (Worker.success_count st, Worker.fail_count st).

(** The paths the selection can hold: existing files that do not end in
    [.pdf]. *)
Definition selectable (isfile : string -> bool) (a : string) : bool :=
  isfile a && negb (endswith a ".pdf").

(** The controls are in one phase at a time: of the lock, start and stop
    buttons at most one is enabled; while the lock button is enabled the
    clicks are bound; while the start button is enabled the clicks are
    not bound and the select button is disabled; while the stop button is
    enabled the select button is disabled. *)
Definition one_phase (c : controls) : Prop :=
  (lock_button c = true ->
   start_button c = false /\ stop_button c = false /\ click_bound c = true) /\
  (start_button c = true ->
   stop_button c = false /\ click_bound c = false /\ select_button c = false) /\
  (stop_button c = true -> select_button c = false).

End MoreProps.
Export MoreProps.

(** ** A base name for the examples *)

Module MoreExamples.

(** [posixpath.basename]: what follows the last slash, the character
    47. *)
Fixpoint basename_from (acc s : string) : string :=
  match s with
  | EmptyString => acc
  | String a s' =>
      if Ascii.eqb a (Ascii.ascii_of_nat 47) then basename_from EmptyString s'
      else basename_from (acc ++ String a EmptyString) s'
  end.

Definition posix_basename (s : string) : string := basename_from EmptyString s.

End MoreExamples.
Export MoreExamples.
(** * Proofs *)

(** ** Reading and changing items along paths *)

Section Paths.

Implicit Types (it c : item) (p q r s : list nat) (f : item -> item).

Lemma item_get_cons it i p :
  item_get it (i :: p) =
  match children it !! i with Some c => item_get c p | None => None end.
Proof. done. Qed.

Lemma item_upd_cons f it i p :
  item_upd f it (i :: p) =
  Item (text_of it) (values it) (tags it)
       (alter (fun c => item_upd f c p) i (children it)).
Proof. done. Qed.

Lemma item_get_app it p r :
  item_get it (p ++ r) =
  match item_get it p with Some c => item_get c r | None => None end.
Proof.
  revert it. induction p as [|i p IH]; intros it; simpl; [done|].
  destruct (children it !! i); [apply IH | done].
Qed.

(** Reading at a prefix of the change point. *)
Lemma item_get_upd_prefix f it p s :
  item_get (item_upd f it (p ++ s)) p =
  (fun c => item_upd f c s) <$> item_get it p.
Proof.
  revert it. induction p as [|i p IH]; intros it; [done|].
  rewrite <-app_comm_cons, item_upd_cons, !item_get_cons.
  cbn [children]. rewrite list_lookup_alter_eq.
  destruct (children it !! i); simpl; [apply IH | done].
Qed.

Lemma item_get_upd_same f it q :
  item_get (item_upd f it q) q = f <$> item_get it q.
Proof.
  rewrite <-(app_nil_r q) at 1. rewrite item_get_upd_prefix.
  by destruct (item_get it q).
Qed.

(** Reading at or below the change point. *)
Lemma item_get_upd_below f it q r :
  item_get (item_upd f it q) (q ++ r) =
  match item_get it q with Some c => item_get (f c) r | None => None end.
Proof.
  rewrite item_get_app, item_get_upd_same.
  by destruct (item_get it q).
Qed.

(** Reading beside the change point. *)
Lemma item_get_upd_beside f it (a : list nat) i j p q :
  i <> j ->
  item_get (item_upd f it (a ++ j :: q)) (a ++ i :: p) =
  item_get it (a ++ i :: p).
Proof.
  intros Hij. rewrite !item_get_app, item_get_upd_prefix.
  destruct (item_get it a) as [x|]; [|done].
  cbn [fmap option_fmap option_map].
  rewrite item_upd_cons, !item_get_cons. cbn [children].
  rewrite list_lookup_alter_ne by done. done.
Qed.

(** Two paths: one continues the other, or they part at some point. *)
Lemma path_cases p q :
  (exists r, p = q ++ r) \/
  (exists j s, q = p ++ j :: s) \/
  (exists (a : list nat) i j p' q',
      i <> j /\ p = a ++ i :: p' /\ q = a ++ j :: q').
Proof.
  revert q. induction p as [|i p IH]; intros q.
  - destruct q as [|j q]; [left; by exists [] | right; left; by exists j, q].
  - destruct q as [|j q]; [left; by exists (i :: p)|].
    destruct (decide (i = j)) as [->|Hij].
    + destruct (IH q) as [[r ->]|[(k & s & ->)|(a & x & y & p' & q' & Hxy & -> & ->)]].
      * left. by exists r.
      * right; left. by exists k, s.
      * right; right. by exists (j :: a), x, y, p', q'.
    + right; right. by exists [], i, j, p, q.
Qed.

Lemma label_item_upd f it i s : label (item_upd f it (i :: s)) = label it.
Proof. done. Qed.

(** A change strictly below the children of an item leaves their labels
    alone. *)
Lemma children_labels_upd f it j k s :
  label <$> children (item_upd f it (j :: k :: s)) = label <$> children it.
Proof.
  rewrite item_upd_cons. cbn [children]. apply list_eq; intros n.
  rewrite !list_lookup_fmap.
  destruct (decide (n = j)) as [->|Hn].
  - rewrite list_lookup_alter_eq. by destruct (children it !! j).
  - by rewrite list_lookup_alter_ne.
Qed.

(** A change that keeps the children of the changed item is invisible
    strictly below it. *)
Lemma item_get_upd_strictly_below f it q i r :
  (forall c, children (f c) = children c) ->
  item_get (item_upd f it q) (q ++ i :: r) = item_get it (q ++ i :: r).
Proof.
  intros Hf. rewrite item_get_upd_below, item_get_app.
  destruct (item_get it q) as [c|]; simpl; [|done]. by rewrite Hf.
Qed.

End Paths.

(** ** Check marks and the rule for parents *)

Section Marks.

Implicit Types (s : text) (ts : list text) (n : new_tag).

Lemma startswith_exclusive s :
  (startswith s box_unchecked = true -> startswith s box_checked = false) /\
  (startswith s box_unchecked = true -> startswith s box_partial = false) /\
  (startswith s box_checked = true -> startswith s box_partial = false).
Proof.
  destruct s as [|a s]; [done|]. cbn [startswith box_unchecked box_checked box_partial].
  destruct (N.eqb_spec 9744 a), (N.eqb_spec 9745 a), (N.eqb_spec 9746 a);
    subst; try done.
Qed.

Lemma mark_unchecked s :
  mark s = Some unchecked <-> startswith s box_unchecked = true.
Proof.
  unfold mark. destruct (startswith s box_unchecked); [done|].
  destruct (startswith s box_checked); [done|].
  by destruct (startswith s box_partial).
Qed.

Lemma mark_checked s :
  mark s = Some checked <-> startswith s box_checked = true.
Proof.
  pose proof (startswith_exclusive s) as (H1 & _ & _). unfold mark.
  destruct (startswith s box_unchecked); [rewrite H1 by done; done|].
  destruct (startswith s box_checked); [done|].
  by destruct (startswith s box_partial).
Qed.

Lemma mark_partial s :
  mark s = Some partial <-> startswith s box_partial = true.
Proof.
  pose proof (startswith_exclusive s) as (_ & H2 & H3). unfold mark.
  destruct (startswith s box_unchecked); [rewrite H2 by done; done|].
  destruct (startswith s box_checked); [rewrite H3 by done; done|].
  by destruct (startswith s box_partial).
Qed.

Lemma mark_dummy s : mark s <> Some dummy.
Proof.
  unfold mark. destruct (startswith s box_unchecked); [done|].
  destruct (startswith s box_checked); [done|].
  by destruct (startswith s box_partial).
Qed.

Lemma has_checkbox_mark s : has_checkbox s = true <-> mark s <> None.
Proof.
  unfold has_checkbox, mark. destruct (startswith s box_unchecked); [done|].
  destruct (startswith s box_checked); [done|].
  by destruct (startswith s box_partial).
Qed.

Lemma counts_checked_mark s :
  counts_checked s = true <->
  mark s = Some checked \/ mark s = Some partial.
Proof.
  rewrite mark_checked, mark_partial. unfold counts_checked.
  destruct (startswith s box_checked), (startswith s box_partial);
    intuition congruence.
Qed.

Lemma counts_unchecked_mark s :
  counts_unchecked s = true <-> mark s = Some unchecked.
Proof.
  rewrite mark_unchecked. unfold counts_unchecked, counts_checked.
  pose proof (startswith_exclusive s) as (H1 & H2 & _).
  destruct (startswith s box_unchecked); [rewrite H1, H2 by done; done|].
  by rewrite andb_false_r.
Qed.

Lemma mark_box_of n s : mark (box_of n ++ s) = Some (tag_of n).
Proof. by destruct n. Qed.

Lemma has_checkbox_box_of n s : has_checkbox (box_of n ++ s) = true.
Proof. by destruct n. Qed.

Lemma parent_state_cases ts :
  parent_state ts = (box_checked, checked) \/
  parent_state ts = (box_unchecked, unchecked) \/
  parent_state ts = (box_partial, partial).
Proof.
  unfold parent_state.
  destruct (Nat.eqb _ _); [by left|].
  destruct (Nat.eqb _ _); [by right; left | by right; right].
Qed.

Lemma mark_parent_state ts s :
  mark ((parent_state ts).1 ++ s) = Some (parent_state ts).2.
Proof. by destruct (parent_state_cases ts) as [->|[->| ->]]. Qed.

Lemma has_checkbox_parent_state ts s :
  has_checkbox ((parent_state ts).1 ++ s) = true.
Proof. by destruct (parent_state_cases ts) as [->|[->| ->]]. Qed.

(** A filter keeps the whole list exactly when every element passes. *)
Lemma length_filter_all {A} (P : A -> Prop) `{!forall x, Decision (P x)}
    (l : list A) :
  length (filter P l) = length l <-> Forall P l.
Proof.
  induction l as [|x l IH]; [by split|].
  rewrite filter_cons. destruct (decide (P x)) as [HP|HP]; simpl.
  - rewrite Forall_cons. split.
    + intros [= Hlen]. split; [done|]. by apply IH.
    + intros [_ Hall]. f_equal. by apply IH.
  - split.
    + intros Hlen. pose proof (length_filter P l). lia.
    + intros Hall. by apply Forall_cons in Hall as [? _].
Qed.

(** The rule of [update_parent_check], read off [parent_state]. *)
Lemma parent_state_checked ts :
  (parent_state ts).2 = checked <->
  Forall (fun s => mark s = Some checked \/ mark s = Some partial) ts.
Proof.
  unfold parent_state.
  destruct (Nat.eqb_spec (count_checked ts) (length ts)) as [H|H].
  - split; [intros _|done]. apply length_filter_all in H.
    eapply Forall_impl; [exact H|]. intros s. apply counts_checked_mark.
  - split.
    + by destruct (Nat.eqb _ _).
    + intros HF. destruct H. apply length_filter_all.
      eapply Forall_impl; [exact HF|]. intros s. apply counts_checked_mark.
Qed.

Lemma parent_state_unchecked ts :
  ts <> [] ->
  (parent_state ts).2 = unchecked <->
  Forall (fun s => mark s = Some unchecked) ts.
Proof.
  intros Hne. unfold parent_state.
  destruct (Nat.eqb_spec (count_checked ts) (length ts)) as [H|H].
  - split; [done|]. intros HF. exfalso.
    apply length_filter_all in H. destruct ts as [|s ts]; [done|].
    apply Forall_cons in H as [H _]. apply Forall_cons in HF as [HF _].
    apply counts_checked_mark in H. rewrite HF in H.
    by destruct H.
  - destruct (Nat.eqb_spec (count_unchecked ts) (length ts)) as [H'|H'].
    + split; [intros _|done]. apply length_filter_all in H'.
      eapply Forall_impl; [exact H'|]. intros s. apply counts_unchecked_mark.
    + split; [done|]. intros HF. destruct H'. apply length_filter_all.
      eapply Forall_impl; [exact HF|]. intros s. apply counts_unchecked_mark.
Qed.

Lemma parent_state_partial ts :
  ts <> [] ->
  (parent_state ts).2 = partial <->
  ~ Forall (fun s => mark s = Some checked \/ mark s = Some partial) ts /\
  ~ Forall (fun s => mark s = Some unchecked) ts.
Proof.
  intros Hne. rewrite <-parent_state_checked, <-parent_state_unchecked by done.
  destruct (parent_state_cases ts) as [->|[->| ->]]; cbn [snd];
    intuition congruence.
Qed.

(** When all the children show the state [n], so does the parent. *)
Lemma parent_state_uniform n ts :
  ts <> [] -> Forall (fun s => mark s = Some (tag_of n)) ts ->
  (parent_state ts).2 = tag_of n.
Proof.
  intros Hne HF. destruct n; simpl in *.
  - apply parent_state_checked. eapply Forall_impl; [exact HF|].
    intros s Hs. by left.
  - by apply parent_state_unchecked.
Qed.

End Marks.

(** ** The rule for parents is kept by clicks *)

Section Rule.

Implicit Types (it c : item) (p q r : list nat) (n : new_tag) (t : tree).

Lemma text_of_label (l l' : list item) :
  label <$> l' = label <$> l -> text_of <$> l' = text_of <$> l.
Proof.
  intros H. apply (f_equal (fmap (fun x => x.1.1))) in H.
  rewrite <-!list_fmap_compose in H. exact H.
Qed.

Lemma follows_rule_ext it it' :
  text_of it' = text_of it -> tags it' = tags it ->
  text_of <$> children it' = text_of <$> children it ->
  follows_rule it -> follows_rule it'.
Proof.
  intros Ht Hg Hc H (Hb & Hne & Hall). rewrite Ht, Hg, Hc. apply H.
  split; [by rewrite <-Ht|]. split.
  - intros Hnil. rewrite Hnil in Hc. by destruct (children it').
  - apply (proj1 (Forall_fmap text_of (fun s => has_checkbox s = true) _)).
    rewrite <-Hc. by apply Forall_fmap.
Qed.

Lemma update_child_unfold n c :
  update_child n c =
  if has_checkbox (text_of c) then
    Item (box_of n ++ drop 2 (text_of c)) (values c) [tag_of n]
         (update_child n <$> children c)
  else c.
Proof. by destruct c. Qed.

Lemma has_checkbox_update_child n c :
  has_checkbox (text_of (update_child n c)) = has_checkbox (text_of c).
Proof.
  rewrite update_child_unfold.
  destruct (has_checkbox (text_of c)) eqn:E; [|done].
  apply has_checkbox_box_of.
Qed.

Lemma mark_update_child n c :
  has_checkbox (text_of c) = true ->
  mark (text_of (update_child n c)) = Some (tag_of n) /\
  tags (update_child n c) = [tag_of n].
Proof.
  intros H. rewrite update_child_unfold, H. split; [|done].
  apply mark_box_of.
Qed.

(** After a cascade every child with a check box shows the new state,
    so a loaded directory among the updated items follows the rule. *)
Lemma cascade_follows_rule n it (s : text) vs :
  follows_rule (Item (box_of n ++ s) vs [tag_of n]
                     (update_child n <$> children it)).
Proof.
  intros (_ & Hne & Hall). cbn [text_of tags children] in *.
  assert ((parent_state (text_of <$> (update_child n <$> children it))).2
          = tag_of n) as ->; [|by rewrite mark_box_of].
  apply parent_state_uniform.
  - intros H. apply Hne. by destruct (children it).
  - apply Forall_fmap, Forall_fmap. apply Forall_fmap in Hall.
    eapply Forall_impl; [exact Hall|]. intros c Hc. cbn in *.
    rewrite has_checkbox_update_child in Hc. by apply mark_update_child.
Qed.

Lemma update_child_follows n r : forall c it',
  (forall r0 it0, item_get c r0 = Some it0 -> follows_rule it0) ->
  item_get (update_child n c) r = Some it' -> follows_rule it'.
Proof.
  induction r as [|i r IH]; intros c it' Hc Hget.
  - injection Hget as <-. rewrite update_child_unfold.
    destruct (has_checkbox (text_of c)); [apply cascade_follows_rule|].
    by apply (Hc []).
  - rewrite update_child_unfold in Hget.
    destruct (has_checkbox (text_of c)); [|by apply (Hc (i :: r))].
    rewrite item_get_cons in Hget. cbn [children] in Hget.
    rewrite list_lookup_fmap in Hget.
    destruct (children c !! i) as [ci|] eqn:Hi; [|done].
    apply (IH ci); [|exact Hget].
    intros r0 it0 H0. apply (Hc (i :: r0)).
    by rewrite item_get_cons, Hi.
Qed.

(** The click followed by the cascade changes the clicked item as
    [update_child] changes a child. *)
Lemma item_upd_upd f g it p :
  item_upd g (item_upd f it p) p = item_upd (g ∘ f) it p.
Proof.
  revert it. induction p as [|i p IH]; intros it; [done|].
  rewrite !item_upd_cons. cbn [text_of values tags children]. f_equal.
  rewrite list_alter_alter_eq. apply list_alter_ext; [|done].
  intros c _. apply IH.
Qed.

Lemma item_upd_ext f g it p :
  (forall c, item_get it p = Some c -> f c = g c) ->
  item_upd f it p = item_upd g it p.
Proof.
  revert it. induction p as [|i p IH]; intros it H; [by apply H|].
  rewrite !item_upd_cons. f_equal. apply list_alter_ext; [|done].
  intros c Hc. apply IH. intros c' Hc'. apply H.
  by rewrite item_get_cons, Hc.
Qed.

Lemma click_cascade t item it n :
  tree_item t item = Some it ->
  has_checkbox (text_of it) = true ->
  update_children
    (set_tags (set_text t item (box_of n ++ drop 2 (text_of it)))
              item [tag_of n]) item n
  = item_upd (update_child n) t (reverse item).
Proof.
  intros Hit Hb. unfold update_children, set_tags, set_text.
  rewrite !item_upd_upd. apply item_upd_ext. intros c Hc.
  unfold tree_item in Hit. rewrite Hit in Hc. injection Hc as <-.
  rewrite update_child_unfold, Hb. done.
Qed.

Lemma click_target_has_checkbox (s : text) n :
  click_target s = Some n -> has_checkbox s = true.
Proof.
  unfold click_target, has_checkbox.
  destruct (startswith s box_unchecked); [done|].
  destruct (startswith s box_checked); [done|].
  by destruct (startswith s box_partial).
Qed.

(** The two steps of a click. *)
Lemma cascade_consistent t q i n :
  consistent t ->
  consistent_except q (item_upd (update_child n) t (q ++ [i])).
Proof.
  intros Ht p it' Hp Hpq Hget.
  destruct (path_cases p (q ++ [i]))
    as [[r ->]|[(j & s & Hq)|(a & x & y & p' & q' & Hxy & -> & Hq)]].
  - rewrite item_get_upd_below in Hget.
    destruct (item_get t (q ++ [i])) as [c|] eqn:Hc; [|done].
    apply (update_child_follows n r c); [|done].
    intros r0 it0 H0. apply (Ht ((q ++ [i]) ++ r0)).
    + by destruct q.
    + by destruct q.
    + by rewrite item_get_app, Hc.
  - destruct s as [|k s].
    + apply app_inj_tail in Hq as [-> _]. done.
    + rewrite Hq, item_get_upd_prefix in Hget.
      destruct (item_get t p) as [it0|] eqn:H0; [|done].
      injection Hget as <-.
      apply (follows_rule_ext it0); [done..| |by apply (Ht p)].
      apply text_of_label, children_labels_upd.
  - rewrite Hq, item_get_upd_beside in Hget by done.
    by apply (Ht (a ++ x :: p')).
Qed.

Lemma recompute_consistent t q j it :
  item_get t (q ++ [j]) = Some it ->
  consistent_except (q ++ [j]) t ->
  consistent_except q
    (item_upd
       (with_tags [(parent_state (text_of <$> children it)).2] ∘
        with_text ((parent_state (text_of <$> children it)).1
                   ++ drop 2 (text_of it)))
       t (q ++ [j])).
Proof.
  intros Hit Ht p it' Hp Hpq Hget.
  destruct (path_cases p (q ++ [j]))
    as [[r ->]|[(k & s & Hq)|(a & x & y & p' & q' & Hxy & -> & Hq)]].
  - destruct r as [|i r].
    + rewrite app_nil_r, item_get_upd_same, Hit in Hget.
      injection Hget as <-. intros _. cbn. split; [|done].
      apply mark_parent_state.
    + rewrite item_get_upd_strictly_below in Hget by done.
      apply (Ht ((q ++ [j]) ++ i :: r)); [by destruct q| |done].
      intros H. apply (f_equal length) in H.
      rewrite !length_app in H. simpl in H. lia.
  - destruct s as [|k' s].
    + apply app_inj_tail in Hq as [-> _]. done.
    + rewrite Hq, item_get_upd_prefix in Hget.
      destruct (item_get t p) as [it0|] eqn:H0; [|done].
      injection Hget as <-.
      apply (follows_rule_ext it0); [done..| |].
      * apply text_of_label, children_labels_upd.
      * apply (Ht p); [done| |done]. rewrite Hq. intros H.
        apply (f_equal length) in H. rewrite length_app in H.
        simpl in H. lia.
  - rewrite Hq, item_get_upd_beside in Hget by done.
    apply (Ht (a ++ x :: p')); [done| |done].
    rewrite Hq. intros H. apply app_inv_head in H. congruence.
Qed.

Lemma consistent_except_missing t q :
  item_get t q = None -> consistent_except q t -> consistent t.
Proof.
  intros Hq Ht p it Hp _ Hget. apply (Ht p); [done| |done].
  intros ->. congruence.
Qed.

Lemma update_parent_check_consistent child : forall t,
  consistent_except (reverse (tree_parent child)) t ->
  consistent (update_parent_check t child).
Proof.
  induction child as [|i parent IH]; intros t Ht; [done|].
  cbn [update_parent_check]. destruct parent as [|j parent']; [done|].
  cbn [tree_parent tail] in *.
  destruct (tree_item t (j :: parent')) as [p|] eqn:Hp.
  - destruct (parent_state (text_of <$> children p)) as [new_state new_tag] eqn:E.
    apply IH. unfold set_tags, set_text. rewrite item_upd_upd.
    unfold tree_item in Hp. rewrite reverse_cons in *.
    pose proof (recompute_consistent t (reverse parent') j p Hp Ht) as H.
    by rewrite E in H.
  - by apply (consistent_except_missing t (reverse (j :: parent'))).
Qed.

Lemma on_treeview_click_consistent t item :
  consistent t -> consistent (on_treeview_click t item).
Proof.
  intros Ht. unfold on_treeview_click. destruct item as [|i parent]; [done|].
  destruct (tree_item t (i :: parent)) as [it|] eqn:Hit; [|done].
  destruct (click_target (text_of it)) as [n|] eqn:Hn; [|done].
  apply update_parent_check_consistent.
  rewrite (click_cascade t (i :: parent) it n Hit)
    by (by apply (click_target_has_checkbox _ n)).
  rewrite reverse_cons. cbn [tree_parent tail].
  by apply cascade_consistent.
Qed.

Lemma clicks_consistent items : forall t,
  consistent t -> consistent (clicks t items).
Proof.
  induction items as [|x items IH]; intros t Ht; [done|].
  apply IH. by apply on_treeview_click_consistent.
Qed.

End Rule.

(** ** C1: the state of a directory after clicks *)

Section ParentRule.

Implicit Types (it c : item) (p : list nat) (t : tree).

Lemma consistentb_sound p : forall it0 it,
  consistentb it0 = true -> item_get it0 p = Some it -> follows_rule it.
Proof.
  induction p as [|i p IH]; intros it0 it Hb Hget.
  - injection Hget as <-. destruct it0. cbn in Hb.
    apply andb_prop in Hb as [Hb _]. by apply bool_decide_eq_true in Hb.
  - rewrite item_get_cons in Hget.
    destruct (children it0 !! i) as [c|] eqn:Hc; [|done].
    apply (IH c); [|done]. destruct it0. cbn in Hb, Hc.
    apply andb_prop in Hb as [_ Hb]. rewrite forallb_forall in Hb.
    apply Hb. apply list_elem_of_In. by eapply list_elem_of_lookup_2.
Qed.

Lemma consistentb_consistent t : consistentb t = true -> consistent t.
Proof. intros Hb p it _ _ Hget. by apply (consistentb_sound p t). Qed.

(** C1, as the code has it: after any sequence of clicks on a tree that
    followed the rule, every loaded directory shows a state that is a
    function of the states its children show: checked exactly when
    every child is checked or partial, unchecked exactly when every
    child is unchecked, and partial otherwise; its tag is that state. *)
Theorem parent_state_after_clicks t items p it :
  consistentb t = true ->
  p <> [] ->
  item_get (clicks t items) p = Some it ->
  loaded_directory it ->
  exists m,
    mark (text_of it) = Some m /\ tags it = [m] /\
    (m = checked <->
     Forall (fun c => mark (text_of c) = Some checked \/
                      mark (text_of c) = Some partial) (children it)) /\
    (m = unchecked <->
     Forall (fun c => mark (text_of c) = Some unchecked) (children it)) /\
    (m = partial <->
     ~ Forall (fun c => mark (text_of c) = Some checked \/
                        mark (text_of c) = Some partial) (children it) /\
     ~ Forall (fun c => mark (text_of c) = Some unchecked) (children it)).
Proof.
  intros Hb Hp Hget Hdir.
  pose proof (clicks_consistent items t (consistentb_consistent t Hb)) as Hc.
  destruct (Hc p it Hp Hp Hget Hdir) as [Hm Htags].
  exists (parent_state (text_of <$> children it)).2.
  assert (text_of <$> children it <> []) as Hne.
  { destruct Hdir as (_ & Hne & _). by destruct (children it). }
  split; [done|]. split; [done|].
  rewrite parent_state_checked, parent_state_unchecked,
    parent_state_partial by done.
  rewrite !Forall_fmap. done.
Qed.

Lemma parent_state_after_clicks_witness :
  exists it,
    item_get (clicks example_tree [[0; 0; 0]; [1; 0]]) [0] = Some it /\
    exists m,
      mark (text_of it) = Some m /\ tags it = [m] /\
      (m = checked <->
       Forall (fun c => mark (text_of c) = Some checked \/
                        mark (text_of c) = Some partial) (children it)) /\
      (m = unchecked <->
       Forall (fun c => mark (text_of c) = Some unchecked) (children it)) /\
      (m = partial <->
       ~ Forall (fun c => mark (text_of c) = Some checked \/
                          mark (text_of c) = Some partial) (children it) /\
       ~ Forall (fun c => mark (text_of c) = Some unchecked) (children it)).
Proof.
  eexists. split; [vm_compute; reflexivity|].
  apply (parent_state_after_clicks example_tree [[0; 0; 0]; [1; 0]] [0]).
  - vm_compute; reflexivity.
  - discriminate.
  - vm_compute; reflexivity.
  - split; [vm_compute; reflexivity|]. split; [discriminate|].
    repeat constructor.
Defined.

(** C1 as it is worded fails: after a click on [a.py] and one on
    [c.pdf] the directory [R] shows checked although its child [R/D]
    is partial, where the worded rule asks for partial. *)
Lemma parent_checked_over_partial_child :
  exists it,
    item_get (clicks example_tree [[0; 0; 0]; [1; 0]]) [0] = Some it /\
    loaded_directory it /\
    mark (text_of it) = Some checked /\
    (mark ∘ text_of) <$> children it = [Some partial; Some checked] /\
    claimed_state ((mark ∘ text_of) <$> children it) = partial.
Proof.
  eexists. split; [vm_compute; reflexivity|].
  split; [|by vm_compute].
  split; [vm_compute; reflexivity|]. split; [discriminate|].
  repeat constructor.
Qed.

End ParentRule.

(** ** C10 and C8: what a click does below the clicked item *)

Section Cascade.

Implicit Types (it c d : item) (p r : list nat) (n : new_tag) (t : tree).

(** [update_parent_check] leaves the item it starts from, and all below
    it, as they are. *)
Lemma update_parent_check_below child : forall t r,
  item_get (update_parent_check t child) (reverse child ++ r) =
  item_get t (reverse child ++ r).
Proof.
  induction child as [|i parent IH]; intros t r; [done|].
  cbn [update_parent_check]. destruct parent as [|j parent']; [done|].
  destruct (tree_item t (j :: parent')) as [p|]; [|done].
  destruct (parent_state (text_of <$> children p)) as [new_state new_tag].
  rewrite (reverse_cons _ i), <-app_assoc. cbn [app].
  rewrite IH. unfold set_tags, set_text. rewrite item_upd_upd.
  by rewrite item_get_upd_strictly_below.
Qed.

Lemma on_treeview_click_below t item it n r :
  item <> [] ->
  tree_item t item = Some it ->
  click_target (text_of it) = Some n ->
  item_get (on_treeview_click t item) (reverse item ++ r) =
  item_get (update_child n it) r.
Proof.
  intros Hne Hit Hn. unfold on_treeview_click.
  destruct item as [|i parent]; [done|]. rewrite Hit, Hn.
  rewrite update_parent_check_below.
  rewrite (click_cascade t (i :: parent) it n Hit)
    by (by apply (click_target_has_checkbox _ n)).
  rewrite item_get_upd_below. unfold tree_item in Hit. by rewrite Hit.
Qed.

(** The cascade reaches every loaded descendant. *)
Lemma update_child_loaded n r : forall c d,
  has_checkbox (text_of c) = true ->
  boxes_along (update_child n c) r ->
  item_get (update_child n c) r = Some d ->
  mark (text_of d) = Some (tag_of n) /\ tags d = [tag_of n].
Proof.
  induction r as [|i r IH]; intros c d Hc Hb Hget.
  - injection Hget as <-. by apply mark_update_child.
  - rewrite update_child_unfold, Hc in Hb, Hget.
    rewrite item_get_cons in Hget. cbn [boxes_along children] in Hb, Hget.
    rewrite list_lookup_fmap in Hb, Hget.
    destruct (children c !! i) as [ci|]; [|done]. cbn in Hb, Hget.
    destruct Hb as [Hci Hb]. rewrite has_checkbox_update_child in Hci.
    by apply (IH ci).
Qed.

Lemma click_target_partial (s : text) :
  mark s = Some partial -> click_target s = Some to_checked.
Proof.
  intros H. unfold click_target. unfold mark in H.
  destruct (startswith s box_unchecked); [done|].
  destruct (startswith s box_checked); [done|].
  by destruct (startswith s box_partial).
Qed.

Lemma click_target_unchecked (s : text) :
  mark s = Some unchecked -> click_target s = Some to_checked.
Proof.
  intros H. apply mark_unchecked in H. unfold click_target. by rewrite H.
Qed.

Lemma click_target_checked (s : text) :
  mark s = Some checked -> click_target s = Some to_unchecked.
Proof.
  intros H. unfold click_target. unfold mark in H.
  destruct (startswith s box_unchecked); [done|].
  destruct (startswith s box_checked); [done|].
  by destruct (startswith s box_partial).
Qed.

(** C10: a click on an item that shows partial makes it checked, puts
    checked on every loaded descendant, and leaves the tree as a click
    on the same item would, had it shown unchecked. *)
Theorem click_on_partial t item it :
  item <> [] ->
  tree_item t item = Some it ->
  mark (text_of it) = Some partial ->
  exists it',
    tree_item (on_treeview_click t item) item = Some it' /\
    text_of it' = box_checked ++ drop 2 (text_of it) /\
    tags it' = [checked] /\
    (forall r d, boxes_along it' r -> item_get it' r = Some d ->
                 mark (text_of d) = Some checked /\ tags d = [checked]) /\
    on_treeview_click t item =
    on_treeview_click
      (set_text t item (box_unchecked ++ drop 2 (text_of it))) item.
Proof.
  intros Hne Hit Hm. pose proof (click_target_partial _ Hm) as Hn.
  pose proof (click_target_has_checkbox _ _ Hn) as Hb.
  exists (update_child to_checked it).
  split; [|split; [|split; [|split]]].
  - pose proof (on_treeview_click_below t item it _ [] Hne Hit Hn) as H.
    by rewrite app_nil_r in H.
  - by rewrite update_child_unfold, Hb.
  - by rewrite update_child_unfold, Hb.
  - intros r d. by apply (update_child_loaded to_checked r it d).
  - unfold on_treeview_click at 1 2. destruct item as [|i parent]; [done|].
    rewrite Hit, Hn. unfold tree_item, set_text at 2.
    rewrite item_get_upd_same. unfold tree_item in Hit. rewrite Hit.
    cbn [fmap option_fmap option_map with_text text_of click_target
              startswith box_unchecked app N.eqb Pos.eqb andb].
    fold box_unchecked. f_equal.
    rewrite (click_cascade t (i :: parent) it to_checked Hit Hb).
    unfold update_children, set_tags, set_text. rewrite !item_upd_upd.
    apply item_upd_ext. intros c Hc. rewrite Hit in Hc. injection Hc as <-.
    by rewrite update_child_unfold, Hb.
Qed.

Lemma click_on_partial_witness :
  exists it,
    tree_item partial_tree [0; 0] = Some it /\
    mark (text_of it) = Some partial /\
    exists it',
      tree_item (on_treeview_click partial_tree [0; 0]) [0; 0] = Some it' /\
      text_of it' = box_checked ++ drop 2 (text_of it) /\
      tags it' = [checked] /\
      (forall r d, boxes_along it' r -> item_get it' r = Some d ->
                   mark (text_of d) = Some checked /\ tags d = [checked]) /\
      on_treeview_click partial_tree [0; 0] =
      on_treeview_click
        (set_text partial_tree [0; 0] (box_unchecked ++ drop 2 (text_of it)))
        [0; 0].
Proof.
  eexists. split; [vm_compute; reflexivity|].
  split; [vm_compute; reflexivity|].
  apply click_on_partial;
    [discriminate | vm_compute; reflexivity | vm_compute; reflexivity].
Defined.

(** C8: a click that checks an item followed by a second click on it
    leaves the item and every loaded descendant unchecked. *)
Theorem check_then_uncheck t item it :
  item <> [] ->
  tree_item t item = Some it ->
  mark (text_of it) = Some unchecked \/ mark (text_of it) = Some partial ->
  (exists it1,
     tree_item (on_treeview_click t item) item = Some it1 /\
     mark (text_of it1) = Some checked) /\
  exists it2,
    tree_item (on_treeview_click (on_treeview_click t item) item) item
      = Some it2 /\
    mark (text_of it2) = Some unchecked /\ tags it2 = [unchecked] /\
    forall r d, boxes_along it2 r -> item_get it2 r = Some d ->
                mark (text_of d) = Some unchecked /\ tags d = [unchecked].
Proof.
  intros Hne Hit Hm.
  assert (click_target (text_of it) = Some to_checked) as Hn.
  { destruct Hm; [by apply click_target_unchecked
                 | by apply click_target_partial]. }
  pose proof (click_target_has_checkbox _ _ Hn) as Hb.
  pose proof (on_treeview_click_below t item it _ [] Hne Hit Hn) as H1.
  rewrite app_nil_r in H1. cbn [item_get] in H1.
  destruct (mark_update_child to_checked it Hb) as [Hm1 _].
  split; [by exists (update_child to_checked it)|].
  pose proof (click_target_checked _ Hm1) as Hn2.
  pose proof (click_target_has_checkbox _ _ Hn2) as Hb2.
  pose proof (on_treeview_click_below _ item _ _ [] Hne H1 Hn2) as H2.
  rewrite app_nil_r in H2. cbn [item_get] in H2.
  exists (update_child to_unchecked (update_child to_checked it)).
  split; [done|].
  destruct (mark_update_child to_unchecked _ Hb2) as [Hm2 Ht2].
  split; [done|]. split; [done|].
  intros r d. by apply (update_child_loaded to_unchecked r _ d).
Qed.

Lemma check_then_uncheck_witness :
  exists it,
    tree_item example_tree [0] = Some it /\
    (mark (text_of it) = Some unchecked \/
     mark (text_of it) = Some partial) /\
    (exists it1,
       tree_item (on_treeview_click example_tree [0]) [0] = Some it1 /\
       mark (text_of it1) = Some checked) /\
    exists it2,
      tree_item
        (on_treeview_click (on_treeview_click example_tree [0]) [0]) [0]
        = Some it2 /\
      mark (text_of it2) = Some unchecked /\ tags it2 = [unchecked] /\
      forall r d, boxes_along it2 r -> item_get it2 r = Some d ->
                  mark (text_of d) = Some unchecked /\ tags d = [unchecked].
Proof.
  eexists. split; [vm_compute; reflexivity|].
  split; [left; vm_compute; reflexivity|].
  eapply (check_then_uncheck example_tree [0]);
    [discriminate | vm_compute; reflexivity | left; vm_compute; reflexivity].
Defined.

End Cascade.

(** ** C5: the flattened selection *)

Section FlattenProofs.

Variable isfile : string -> bool.

Implicit Types (it c : item) (acc : list string).

(** Induction on items, with the property in hand for the children. *)
Lemma item_children_ind (P : item -> Prop) :
  (forall s vs tg cs, Forall P cs -> P (Item s vs tg cs)) ->
  forall it, P it.
Proof.
  intros H. fix IH 1. intros [s vs tg cs]. apply H.
  induction cs as [|c cs IHcs]; constructor; [apply IH | exact IHcs].
Qed.

Lemma omap_flat_map {A B C} (f : B -> option C) (g : A -> list B) (l : list A) :
  omap f (flat_map g l) = flat_map (fun x => omap f (g x)) l.
Proof.
  induction l as [|x l IH]; [done|]. cbn [flat_map].
  by rewrite omap_app, IH.
Qed.

Lemma fold_recurse cs : forall acc,
  Forall (fun c => forall acc,
            recurse isfile c acc = acc ++ omap (selected_path isfile) (visit c))
         cs ->
  fold_left (fun acc child => recurse isfile child acc) cs acc =
  acc ++ omap (selected_path isfile) (flat_map visit cs).
Proof.
  induction cs as [|c cs IH]; intros acc Hcs.
  - by rewrite app_nil_r.
  - apply Forall_cons in Hcs as [Hc Hcs]. cbn [fold_left flat_map].
    rewrite IH, Hc, omap_app, app_assoc by done. done.
Qed.

Lemma recurse_visit it : forall acc,
  recurse isfile it acc = acc ++ omap (selected_path isfile) (visit it).
Proof.
  induction it as [s vs tg cs IH] using item_children_ind. intros acc.
  cbn [recurse visit values tags children].
  destruct vs as [|abspath vs]; [by rewrite app_nil_r|].
  rewrite fold_recurse by done. cbn [omap list_omap].
  unfold selected_path at 2. cbn [values tags].
  destruct (bool_decide (checked ∈ tg) && isfile abspath); cbn [andb].
  - destruct (endswith abspath ".pdf"); cbn [negb].
    + done.
    + by rewrite <-app_assoc.
  - done.
Qed.

Lemma visit_preorder it :
  Forall (fun d => values d <> []) (preorder it) -> visit it = preorder it.
Proof.
  induction it as [s vs tg cs IH] using item_children_ind.
  cbn [visit preorder values children]. intros Hall.
  apply Forall_cons in Hall as [Hv Hall]. cbn in Hv.
  destruct vs; [done|]. f_equal.
  induction cs as [|c cs IHcs]; [done|]. cbn [flat_map] in *.
  apply Forall_app in Hall as [Hc Hall].
  apply Forall_cons in IH as [IHc IH]. by rewrite IHc, IHcs.
Qed.

Lemma selected_path_inv it a :
  selected_path isfile it = Some a ->
  head (values it) = Some a /\ checked ∈ tags it /\
  isfile a = true /\ endswith a ".pdf" = false.
Proof.
  unfold selected_path. destruct (values it) as [|abspath vs]; [done|].
  destruct (bool_decide (checked ∈ tags it)) eqn:Hc; [|done].
  destruct (isfile abspath) eqn:Hf; [|done].
  destruct (endswith abspath ".pdf") eqn:Hp; [done|].
  intros [= <-]. by apply bool_decide_eq_true in Hc.
Qed.

Lemma get_checked_items_visit (t : tree) :
  get_checked_items isfile t =
  omap (selected_path isfile) (flat_map visit (children t)).
Proof.
  unfold get_checked_items. rewrite fold_recurse; [done|].
  apply Forall_forall. intros c _. apply recurse_visit.
Qed.

(** C5: the selection is the list, in depth-first order, of the first
    values of the visited items that are tagged checked, name an existing
    file and do not end in [.pdf].  The visit goes below an item whatever
    its own tags are, and is the full depth-first listing when every
    item has values, as every item the program inserts has.  A path in
    the selection is an existing file, so not a directory, and does not
    end in [.pdf]. *)
Theorem get_checked_items_selected (isdir : string -> bool) (t : tree) :
  (forall a, isfile a = true -> isdir a = false) ->
  get_checked_items isfile t =
    omap (selected_path isfile) (flat_map visit (children t)) /\
  (Forall (fun d => values d <> []) (flat_map preorder (children t)) ->
   flat_map visit (children t) = flat_map preorder (children t)) /\
  forall a, a ∈ get_checked_items isfile t ->
    isfile a = true /\ isdir a = false /\ endswith a ".pdf" = false /\
    exists it, it ∈ flat_map visit (children t) /\
               head (values it) = Some a /\ checked ∈ tags it.
Proof.
  intros Hfs.
  pose proof (get_checked_items_visit t) as Heq.
  split; [done|]. split.
  - clear Heq. induction (children t) as [|c cs IH]; [done|]. cbn [flat_map].
    intros Hall. apply Forall_app in Hall as [Hc Hall].
    by rewrite visit_preorder, IH.
  - intros a Ha. rewrite Heq in Ha.
    apply list_elem_of_omap in Ha as (it & Hit & Hsel).
    apply selected_path_inv in Hsel as (Hv & Hc & Hf & Hp).
    repeat split; [done|by apply Hfs|done|]. by exists it.
Qed.

End FlattenProofs.

Example get_checked_items_checked_tree :
  get_checked_items example_isfile checked_tree = ["R/D/a.py"; "R/D/b.txt"].
Proof. reflexivity. Qed.

Lemma get_checked_items_selected_witness :
  (forall a, example_isfile a = true -> example_isdir a = false) /\
  get_checked_items example_isfile checked_tree =
    omap (selected_path example_isfile) (flat_map visit (children checked_tree)) /\
  (Forall (fun d => values d <> []) (flat_map preorder (children checked_tree)) ->
   flat_map visit (children checked_tree) =
   flat_map preorder (children checked_tree)) /\
  forall a, a ∈ get_checked_items example_isfile checked_tree ->
    example_isfile a = true /\ example_isdir a = false /\
    endswith a ".pdf" = false /\
    exists it, it ∈ flat_map visit (children checked_tree) /\
               head (values it) = Some a /\ checked ∈ tags it.
Proof.
  assert (forall a, example_isfile a = true -> example_isdir a = false) as H.
  { intros a Ha. unfold example_isdir. rewrite Ha. reflexivity. }
  split; [exact H|].
  exact (get_checked_items_selected example_isfile example_isdir checked_tree H).
Defined.

(** ** C9: a node is expanded once *)

Section Expand.

Implicit Types (it c d : item) (p m : list nat) (t : tree) (n : new_tag)
  (f : item -> item).

Lemma item_upd_app f it p q :
  item_upd f it (p ++ q) = item_upd (fun c => item_upd f c q) it p.
Proof.
  revert it. induction p as [|i p IH]; intros it; [done|].
  rewrite <-app_comm_cons, !item_upd_cons. f_equal.
  apply list_alter_ext; [|done]. intros c _. apply IH.
Qed.












(** Ingesting a directory appends, in one go, the item of the directory
    with its placeholder below it. *)
Lemma process_tree_entry_directory basename t path parent c :
  tree_item t parent = Some c ->
  process_tree_entry basename t (Tree_entry directory path parent) =
  Some (item_upd
          (fun it => with_children
             (children it ++
                [Item (box_unchecked ++ u (basename path)) [path] [unchecked]
                      [Item (u "Loading...") [""] [dummy] []]]) it)
          t (reverse parent)).
Proof.
  intros Hc. unfold process_tree_entry, tree_insert. cbn [te_parent te_kind te_path].
  rewrite Hc. cbn [fst snd]. unfold tree_item in *.
  rewrite reverse_cons, item_get_upd_below, Hc.
  rewrite item_get_cons. cbn [with_children children].
  rewrite lookup_app_r, Nat.sub_diag by done. cbn [lookup list_lookup item_get fst].
  f_equal. rewrite item_upd_app, item_upd_upd. apply item_upd_ext.
  intros c' Hc'. rewrite Hc in Hc'. injection Hc' as <-.
  cbn [compose]. rewrite item_upd_cons.
  cbn [with_children text_of values tags children]. f_equal.
  rewrite <-(Nat.add_0_r (length (children c))) at 1.
  by rewrite alter_app_r.
Qed.









End Expand.

(** ** C6: what a scan delivers and reports *)

Section ScanProofs.

Variable stop_is_set : nat -> bool.
Variable parent_node : iid.

Implicit Types (e : dir_entry) (st : scan_state) (k : nat).

(** One turn of the loop on an entry that raises nothing. *)
Lemma scan_entries_step e rest k st :
  stop_is_set k = false ->
  entry_raises e = None ->
  scan_entries stop_is_set parent_node (e :: rest) k st =
  scan_entries stop_is_set parent_node rest (S k)
    (Scan_state (tree_queue st ++ option_list (entry_of parent_node e))
                (enqueued st || bool_decide (is_Some (entry_of parent_node e)))).
Proof.
  intros Hk He. cbn [scan_entries]. rewrite Hk.
  unfold entry_raises, entry_of in *.
  destruct (entry_is_dir e) as [[|]|x]; [| |done].
  - by rewrite orb_true_r.
  - destruct (entry_is_file e) as [[|]|x]; [| |done].
    + by rewrite orb_true_r.
    + rewrite app_nil_r, orb_false_r. by destruct st.
Qed.

Lemma scan_entries_raise e rest k st x :
  stop_is_set k = false ->
  entry_raises e = Some x ->
  scan_entries stop_is_set parent_node (e :: rest) k st = (st, Some x).
Proof.
  intros Hk He. cbn [scan_entries]. rewrite Hk. unfold entry_raises in He.
  destruct (entry_is_dir e) as [[|]|y]; [done| |by injection He as ->].
  destruct (entry_is_file e) as [[|]|y]; [done|done|by injection He as ->].
Qed.

(** The entries before the one that raises are all handled. *)
Lemma scan_entries_prefix pre : forall rest k st,
  (forall j, j < length pre -> stop_is_set (k + j) = false) ->
  Forall (fun e => entry_raises e = None) pre ->
  scan_entries stop_is_set parent_node (pre ++ rest) k st =
  scan_entries stop_is_set parent_node rest (k + length pre)
    (Scan_state (tree_queue st ++ omap (entry_of parent_node) pre)
                (enqueued st ||
                 bool_decide (omap (entry_of parent_node) pre <> []))).
Proof.
  induction pre as [|e pre IH]; intros rest k st Hstop Hpre.
  - cbn [app omap list_omap length]. rewrite Nat.add_0_r, app_nil_r.
    rewrite bool_decide_eq_false_2 by (by intros H). rewrite orb_false_r.
    by destruct st.
  - apply Forall_cons in Hpre as [He Hpre]. cbn [app].
    rewrite scan_entries_step; [|by rewrite <-(Nat.add_0_r k); apply Hstop; cbn; lia|done].
    rewrite IH; [|intros j Hj; replace (S k + j) with (k + S j) by lia;
                  apply Hstop; cbn; lia|done].
    cbn [tree_queue enqueued length omap list_omap].
    replace (S k + length pre) with (k + S (length pre)) by lia.
    f_equal. destruct (entry_of parent_node e) as [x|]; cbn [option_list].
    + rewrite <-app_assoc. cbn [app]. f_equal.
      rewrite bool_decide_eq_true_2 by (by eexists).
      rewrite (bool_decide_eq_true_2 (_ :: _ <> [])) by done.
      by rewrite orb_true_r.
    + rewrite app_nil_r, bool_decide_eq_false_2 by (by intros [? ?]).
      by rewrite orb_false_r.
Qed.

(** C6, as the code has it.  When the directory itself cannot be listed,
    nothing is delivered and two events are reported: the error and,
    since nothing was put on the queue, the notice that nothing eligible
    was found.  When an entry raises after the entries [pre] were
    handled, the items of [pre] are delivered and the error is reported,
    followed by that notice only if [pre] gave no item.  An empty
    directory delivers nothing and reports the notice alone. *)
Theorem scan_reports (abspath : string) :
  (forall x,
     scan_and_enqueue_children stop_is_set parent_node abspath (Raise x) =
     ([], [Ev_log (error_log abspath x);
           Ev_log (No_eligible_found abspath)])) /\
  (forall pre bad post x,
     (forall j, j <= length pre -> stop_is_set j = false) ->
     Forall (fun e => entry_raises e = None) pre ->
     entry_raises bad = Some x ->
     scan_and_enqueue_children stop_is_set parent_node abspath
       (Ok (pre ++ bad :: post)) =
     (omap (entry_of parent_node) pre,
      Ev_log (error_log abspath x) ::
        match omap (entry_of parent_node) pre with
        | [] => [Ev_log (No_eligible_found abspath)]
        | _ :: _ => []
        end)) /\
  scan_and_enqueue_children stop_is_set parent_node abspath (Ok []) =
  ([], [Ev_log (No_eligible_found abspath)]).
Proof.
  split; [|split].
  - intros x. unfold scan_and_enqueue_children. by destruct x.
  - intros pre bad post x Hstop Hpre Hbad. unfold scan_and_enqueue_children.
    rewrite scan_entries_prefix;
      [|intros j Hj; apply Hstop; lia|done].
    rewrite (scan_entries_raise bad post _ _ x); [|apply Hstop; lia|done].
    cbn [tree_queue enqueued app orb].
    destruct (omap (entry_of parent_node) pre) as [|y ys].
    + rewrite bool_decide_eq_false_2 by (by intros H). by destruct x.
    + rewrite bool_decide_eq_true_2 by done. by destruct x.
  - done.
Qed.

End ScanProofs.

(** C6 as it is worded fails: a directory that cannot be read gives two
    events, not one. *)
Lemma unreadable_directory_two_events :
  scan_and_enqueue_children (fun _ => false) [0] "R" (Raise PermissionError) =
  ([], [Ev_log (Permission_denied "R"); Ev_log (No_eligible_found "R")]).
Proof. reflexivity. Qed.

Lemma scan_reports_witness :
  let pre := [Dir_entry "R/D" (Ok true) (Ok false)] in
  let bad := Dir_entry "R/x" (Raise OtherError) (Ok false) in
  (forall j, j <= length pre -> (fun _ : nat => false) j = false) /\
  Forall (fun e => entry_raises e = None) pre /\
  entry_raises bad = Some OtherError /\
  scan_and_enqueue_children (fun _ => false) [0] "R" (Ok (pre ++ bad :: [])) =
  ([Tree_entry directory "R/D" [0]], [Ev_log (Error_scanning "R")]).
Proof.
  intros pre bad.
  assert (forall j, j <= length pre -> (fun _ : nat => false) j = false) as H1
    by reflexivity.
  assert (Forall (fun e => entry_raises e = None) pre) as H2
    by (repeat constructor).
  assert (entry_raises bad = Some OtherError) as H3 by reflexivity.
  split; [exact H1|]. split; [exact H2|]. split; [exact H3|].
  exact (proj1 (proj2 (scan_reports (fun _ => false) [0] "R"))
           pre bad [] OtherError H1 H2 H3).
Defined.

(** ** The conversion worker: what a run attempts and reports *)

Section WorkerProofs.

Variable w : world.

Implicit Types (st : worker) (xs ys : list task) (items : list string)
  (idx : nat).

Lemma extends_refl st : extends w [] 0 st st.
Proof.
  unfold extends, count_ok, count_failed. cbn.
  by rewrite !app_nil_r, !Nat.add_0_r.
Qed.

Lemma extends_trans xs ys f1 f2 st1 st2 st3 :
  extends w xs f1 st1 st2 -> extends w ys f2 st2 st3 ->
  extends w (xs ++ ys) (f1 + f2) st1 st3.
Proof.
  intros (Ha & Hs & Hf & Ho & Hl & Hp) (Ha' & Hs' & Hf' & Ho' & Hl' & Hp').
  unfold extends, count_ok, count_failed in *.
  rewrite !fmap_app, !filter_app, !length_app, replicate_add, !app_assoc.
  rewrite Ha', Ha, Hs', Hs, Hf', Hf, Ho', Ho, Hl', Hl, Hp', Hp.
  repeat split; lia.
Qed.

Lemma extends_convert_pdf idx source_file st :
  extends w [(idx, source_file, pdf)] 0 st (convert_pdf w idx source_file st).
Proof.
  unfold extends, convert_pdf, count_ok, count_failed, outcomes, logs,
    progress_steps, succeed, fail, put, attempt.
  cbn [filter list_filter fmap list_fmap task_ok task_log task_pair fst snd
       replicate].
  destruct (pdf_try w idx source_file);
    cbn [attempted success_count fail_count gui_queue];
    rewrite ?decide_True, ?decide_False by done;
    rewrite <-?app_assoc, ?omap_app; cbn; rewrite ?app_nil_r;
    repeat split; try done; repeat case_decide; try done; cbn; lia.
Qed.

Lemma extends_convert_txt idx source_file st :
  extends w [(idx, source_file, txt)] 0 st (convert_txt w idx source_file st).
Proof.
  unfold extends, convert_txt, count_ok, count_failed, outcomes, logs,
    progress_steps, succeed, fail, put, attempt.
  cbn [filter list_filter fmap list_fmap task_ok task_log task_pair fst snd
       replicate].
  destruct (txt_try w idx source_file);
    cbn [attempted success_count fail_count gui_queue];
    rewrite ?decide_True, ?decide_False by done;
    rewrite <-?app_assoc, ?omap_app; cbn; rewrite ?app_nil_r;
    repeat split; try done; repeat case_decide; try done; cbn; lia.
Qed.

Lemma extends_progress st : extends w [] 1 st (put st (Ev_progress 1)).
Proof.
  unfold extends, count_ok, count_failed, outcomes, logs, progress_steps, put.
  cbn [attempted success_count fail_count gui_queue filter list_filter
       fmap list_fmap replicate length].
  rewrite !omap_app. cbn. rewrite !app_nil_r, !Nat.add_0_r. done.
Qed.

Lemma extends_convert_file idx source_file st :
  extends w ((fun f => (idx, source_file, f)) <$> formats_at w idx) 1 st
          (convert_file w idx source_file st).
Proof.
  assert (bool_decide (pdf ∈ [txt]) = false) as Hpt by reflexivity.
  assert (bool_decide (txt ∈ [pdf]) = false) as Htp by reflexivity.
  assert (bool_decide (pdf ∈ [pdf]) = true) as Hpp by reflexivity.
  assert (bool_decide (txt ∈ [txt]) = true) as Htt by reflexivity.
  assert (bool_decide (pdf ∈ [pdf; txt]) = true) as Hp2 by reflexivity.
  assert (bool_decide (txt ∈ [pdf; txt]) = true) as Ht2 by reflexivity.
  unfold convert_file, formats_at.
  destruct (pdf_var w idx), (txt_var w idx); cbn [app fmap list_fmap];
    rewrite ?Hpt, ?Htp, ?Hpp, ?Htt, ?Hp2, ?Ht2.
  - eapply (extends_trans [_; _] [] 0 1); [|apply extends_progress].
    eapply (extends_trans [_] [_] 0 0);
      [apply extends_convert_pdf | apply extends_convert_txt].
  - eapply (extends_trans [_] [] 0 1); [|apply extends_progress].
    apply extends_convert_pdf.
  - eapply (extends_trans [_] [] 0 1); [|apply extends_progress].
    apply extends_convert_txt.
  - eapply (extends_trans [_] [] 0 1); [|apply extends_progress].
    apply extends_convert_pdf.
Qed.

(** A run that never finds the stop flag set goes through every item. *)
Lemma conversion_loop_never_stops items : forall idx st,
  never_stops w ->
  exists st',
    conversion_loop w items idx st = (st', idx + length items) /\
    extends w (tasks_from w idx items) (length (files_from w idx items)) st st'.
Proof.
  induction items as [|source_file rest IH]; intros idx st Hw.
  - exists st. cbn. rewrite Nat.add_0_r. split; [done|apply extends_refl].
  - cbn [conversion_loop tasks_from files_from length]. rewrite Hw.
    destruct (isdir w idx source_file).
    + destruct (IH (S idx) st Hw) as (st' & Hloop & Hext).
      exists st'. split; [rewrite Hloop; f_equal; lia|done].
    + destruct (IH (S idx) (convert_file w idx source_file st) Hw)
        as (st' & Hloop & Hext).
      exists st'. split; [rewrite Hloop; f_equal; lia|].
      rewrite length_app. cbn [length].
      eapply extends_trans; [apply extends_convert_file|exact Hext].
Qed.

Lemma extends_put_message st :
  extends w [] 0 st (put st Ev_message_all_converted).
Proof.
  unfold extends, count_ok, count_failed, outcomes, logs, progress_steps, put.
  cbn [attempted success_count fail_count gui_queue filter list_filter
       fmap list_fmap replicate length].
  rewrite !omap_app. cbn. rewrite !app_nil_r, !Nat.add_0_r. done.
Qed.

Lemma extends_put_buttons st :
  extends w [] 0 st (put st Ev_buttons_enable).
Proof.
  unfold extends, count_ok, count_failed, outcomes, logs, progress_steps, put.
  cbn [attempted success_count fail_count gui_queue filter list_filter
       fmap list_fmap replicate length].
  rewrite !omap_app. cbn. rewrite !app_nil_r, !Nat.add_0_r. done.
Qed.

Lemma run_conversion_never_stops items :
  never_stops w ->
  exists st',
    run_conversion w items =
      put (put st' Ev_message_all_converted) Ev_buttons_enable /\
    extends w (tasks_from w 0 items) (length (files_from w 0 items))
            init_worker st'.
Proof.
  intros Hw.
  destruct (conversion_loop_never_stops items 0 init_worker Hw)
    as (st' & Hloop & Hext).
  exists st'. split; [|done].
  unfold run_conversion. by rewrite Hloop, Hw.
Qed.

Lemma run_conversion_extends items :
  never_stops w ->
  extends w (tasks_from w 0 items) (length (files_from w 0 items))
          init_worker (run_conversion w items) /\
  exists q, gui_queue (run_conversion w items) =
            q ++ [Ev_message_all_converted; Ev_buttons_enable].
Proof.
  intros Hw. destruct (run_conversion_never_stops items Hw) as (st & -> & Hext).
  split.
  - rewrite <-(app_nil_r (tasks_from w 0 items)).
    rewrite <-(Nat.add_0_r (length (files_from w 0 items))).
    eapply extends_trans; [|apply extends_put_buttons].
    rewrite <-(app_nil_r (tasks_from w 0 items)).
    rewrite <-(Nat.add_0_r (length (files_from w 0 items))).
    eapply extends_trans; [exact Hext|apply extends_put_message].
  - exists (gui_queue st). unfold put. cbn [gui_queue].
    by rewrite <-app_assoc.
Qed.

Lemma files_from_length items : forall idx,
  length (files_from w idx items) <= length items.
Proof.
  induction items as [|source_file rest IH]; intros idx; [done|].
  cbn [files_from length]. rewrite length_app. specialize (IH (S idx)).
  destruct (isdir w idx source_file); cbn [length]; lia.
Qed.

Lemma progress_value_app (q1 q2 : list gui_event) :
  progress_value (q1 ++ q2) = progress_value q1 + progress_value q2.
Proof.
  unfold progress_value, progress_steps. rewrite omap_app.
  induction (omap _ q1) as [|n l IH]; [done|]. cbn [app foldr]. lia.
Qed.

Lemma progress_value_monotone (q : list gui_event) j :
  progress_value (take j q) <= progress_value (take (S j) q).
Proof.
  destruct (q !! j) as [e|] eqn:He.
  - rewrite (take_S_r q j e He), progress_value_app. lia.
  - apply lookup_ge_None in He. rewrite !take_ge by lia. done.
Qed.

Lemma progress_value_replicate n (q : list gui_event) :
  progress_steps q = replicate n 1 -> progress_value q = n.
Proof.
  unfold progress_value. intros ->.
  induction n as [|n IH]; [done|]. cbn [replicate foldr]. lia.
Qed.

Lemma bar_steps_mod (maximum : nat) (l : list nat) : forall v,
  0 < maximum ->
  fold_left (Progressbar_step maximum) l (v mod maximum) =
  (v + foldr Nat.add 0 l) mod maximum.
Proof.
  induction l as [|a l IH]; intros v Hmax.
  - cbn [fold_left foldr]. by rewrite Nat.add_0_r.
  - cbn [fold_left foldr].
    change (Progressbar_step maximum (v mod maximum) a)
      with ((v mod maximum + a) mod maximum).
    rewrite IH by done.
    by rewrite <-Nat.add_assoc, Nat.Div0.add_mod_idemp_l.
Qed.

(** With a positive maximum the bar shows the sum of the increments
    modulo the maximum. *)
Lemma bar_value_mod (maximum : nat) (q : list gui_event) :
  0 < maximum -> bar_value maximum q = progress_value q mod maximum.
Proof.
  intros Hmax. unfold bar_value, progress_value.
  rewrite <-(Nat.Div0.mod_0_l maximum) at 1.
  by rewrite bar_steps_mod.
Qed.

Lemma bar_steps_le (maximum : nat) (l : list nat) : forall v,
  fold_left (Progressbar_step maximum) l v <= v + foldr Nat.add 0 l.
Proof.
  induction l as [|a l IH]; intros v; cbn [fold_left foldr]; [lia|].
  etrans; [apply IH|].
  assert (Progressbar_step maximum v a <= v + a); [|lia].
  unfold Progressbar_step. destruct maximum as [|m]; [done|].
  apply Nat.Div0.mod_le.
Qed.

(** The bar never shows more than the sum of the increments. *)
Lemma bar_value_le (maximum : nat) (q : list gui_event) :
  bar_value maximum q <= progress_value q.
Proof. apply (bar_steps_le maximum (progress_steps q) 0). Qed.

Lemma progress_value_take (q : list gui_event) j :
  progress_value (take j q) <= progress_value q.
Proof.
  rewrite <-(take_drop j q) at 2. rewrite progress_value_app. lia.
Qed.

Lemma formats_at_nonempty idx : 0 < length (formats_at w idx).
Proof.
  unfold formats_at. destruct (pdf_var w idx), (txt_var w idx); cbn; lia.
Qed.

End WorkerProofs.

(** ** C2 and C7: complete runs *)

(** C2, as the code has it: in a run that is not stopped the worker
    attempts the (file, format) pairs in the order of the selection and
    puts exactly one success-or-failure event per pair on the queue, in
    that order; it puts one progress increment per file, not per pair,
    and no more of them than the selection has items.  The progress bar,
    set to the value 0 and to the length of the selection as its maximum
    when the run starts, stays below that maximum while the events are
    drained, so it is at most that length times the number of formats;
    as long as fewer increments than the maximum have been drained it
    shows their number, so it does not decrease, and it ends at the
    number of files when that is below the maximum.  What the bar shows
    once as many increments as the maximum are drained is not stated
    here. *)
Theorem reports_of_a_run (w : world) (items : list string) :
  never_stops w ->
  let q := gui_queue (run_conversion w items) in
  let n := length items in
  let files := length (files_from w 0 items) in
  attempted (run_conversion w items) = task_pair <$> tasks_from w 0 items /\
  outcomes q = task_ok w <$> tasks_from w 0 items /\
  progress_steps q = replicate files 1 /\
  files <= n /\
  (items <> [] -> forall j, bar_value n (take j q) < n) /\
  (forall F, (forall idx, formats_at w idx = F) ->
     forall j, bar_value n (take j q) <= n * length F) /\
  (forall j, progress_value (take j q) < n ->
     bar_value n (take j q) = progress_value (take j q)) /\
  (forall j, progress_value (take (S j) q) < n ->
     bar_value n (take j q) <= bar_value n (take (S j) q)) /\
  (files < n -> bar_value n q = files).
Proof.
  intros Hw q n files.
  destruct (run_conversion_extends w items Hw)
    as [(Ha & _ & _ & Ho & _ & Hp) _].
  cbn [init_worker attempted gui_queue app] in *.
  change (outcomes []) with (@nil bool) in Ho.
  change (progress_steps []) with (@nil nat) in Hp.
  cbn [app] in *. fold q in Ho, Hp. fold files in Hp.
  pose proof (progress_value_replicate _ _ Hp) as Hv.
  pose proof (files_from_length w items 0) as Hlen. fold files n in Hlen.
  assert (forall j, progress_value (take j q) < n ->
            bar_value n (take j q) = progress_value (take j q)) as Hshow.
  { intros j Hj. rewrite bar_value_mod by lia. by apply Nat.mod_small. }
  split; [done|]. split; [done|]. split; [done|]. split; [done|].
  split.
  { intros Hne j. rewrite bar_value_mod.
    - apply Nat.mod_upper_bound. subst n. by destruct items.
    - subst n. destruct items; [done|cbn [length]; lia]. }
  split.
  { intros F HF j.
    pose proof (formats_at_nonempty w 0) as HF0. rewrite HF in HF0.
    pose proof (bar_value_le n (take j q)) as Hbar.
    pose proof (progress_value_take q j) as Htake. nia. }
  split; [done|]. split.
  { intros j Hj. pose proof (progress_value_monotone q j) as Hmono.
    rewrite !Hshow by lia. done. }
  intros Hfiles. rewrite <-(take_ge q (length q)) by done.
  rewrite Hshow; rewrite take_ge by done; lia.
Qed.

Lemma reports_of_a_run_witness :
  let w := never_stop (example_world 0) in
  let items := ["R/D/a.py"; "R/D/b.txt"] in
  never_stops w /\
  attempted (run_conversion w items) =
    [("R/D/a.py", pdf); ("R/D/a.py", txt);
     ("R/D/b.txt", pdf); ("R/D/b.txt", txt)] /\
  outcomes (gui_queue (run_conversion w items)) = [true; true; true; false] /\
  progress_steps (gui_queue (run_conversion w items)) = [1; 1] /\
  bar_value 2 (take 5 (gui_queue (run_conversion w items))) = 1.
Proof.
  intros w items.
  assert (never_stops w) as Hw by (intros r d; reflexivity).
  split; [exact Hw|].
  destruct (reports_of_a_run w items Hw)
    as (Ha & Ho & Hp & _ & _ & _ & Hshow & _).
  split; [exact Ha|]. split; [exact Ho|]. split; [exact Hp|].
  apply (Hshow 5). vm_compute. lia.
Defined.

(** C2 as it is worded fails: with both formats asked for, a file gives
    two (file, format) pairs but one progress increment. *)
Lemma one_progress_event_for_two_tasks :
  let w := never_stop (example_world 0) in
  attempted (run_conversion w ["R/D/a.py"]) =
    [("R/D/a.py", pdf); ("R/D/a.py", txt)] /\
  progress_steps (gui_queue (run_conversion w ["R/D/a.py"])) = [1] /\
  gui_queue (run_conversion w ["R/D/a.py"]) =
    [Ev_success 1; Ev_log (Converted_to pdf "R/D/a.py.pdf");
     Ev_success 2; Ev_log (Converted_to txt "R/D/a.py.txt");
     Ev_progress 1; Ev_message_all_converted; Ev_buttons_enable].
Proof. by vm_compute. Qed.

(** What the statement of C2 leaves open.  When no item of the
    selection is a directory, the increment of the last file takes the
    bar from one below its maximum back to 0: the bar is empty when the
    run reports that all files have been converted. *)
Lemma bar_value_wraps (w : world) (items : list string) :
  never_stops w ->
  items <> [] ->
  length (files_from w 0 items) = length items ->
  bar_value (length items) (gui_queue (run_conversion w items)) = 0.
Proof.
  intros Hw Hne Hall.
  destruct (run_conversion_extends w items Hw) as [(_ & _ & _ & _ & _ & Hp) _].
  cbn [init_worker gui_queue] in Hp.
  change (progress_steps []) with (@nil nat) in Hp. cbn [app] in Hp.
  rewrite bar_value_mod by (destruct items; [done|cbn [length]; lia]).
  rewrite (progress_value_replicate _ _ Hp), Hall.
  apply Nat.Div0.mod_same.
Qed.

Section Isolation.

Variable w : world.

(** The tasks a run attempts do not depend on how the tasks end. *)
Lemma attempted_convert_file idx source_file (st : worker) (w' : world) :
  attempted (convert_file w' idx source_file st) =
  attempted st ++ ((fun f => (source_file, f)) <$> formats_at w' idx).
Proof.
  destruct (extends_convert_file w' idx source_file st) as (Ha & _).
  rewrite Ha. f_equal. by rewrite <-list_fmap_compose.
Qed.

Lemma conversion_loop_all_succeed items : forall idx (st st' : worker),
  attempted st = attempted st' ->
  attempted (conversion_loop w items idx st).1 =
  attempted (conversion_loop (all_succeed w) items idx st').1 /\
  (conversion_loop w items idx st).2 =
  (conversion_loop (all_succeed w) items idx st').2.
Proof.
  induction items as [|source_file rest IH]; intros idx st st' Hst; [done|].
  cbn [conversion_loop all_succeed stop_is_set isdir]. rewrite <-Hst.
  destruct (stop_is_set w idx (length (attempted st))); [done|].
  destruct (isdir w idx source_file); [by apply IH|].
  apply IH. rewrite !attempted_convert_file, Hst. done.
Qed.

(** C7: a task that fails changes nothing in what the worker goes on to
    attempt, as the run attempts the same tasks as in a world where every
    task succeeds.  In a run that is not stopped every task of the
    selection is attempted, each failure is counted and logged, each
    success too, and the run ends with the summary and the event that
    enables the controls again. *)
Theorem failures_are_isolated (items : list string) :
  attempted (run_conversion w items) =
  attempted (run_conversion (all_succeed w) items) /\
  (never_stops w ->
   attempted (run_conversion w items) = task_pair <$> tasks_from w 0 items /\
   fail_count (run_conversion w items) = count_failed w (tasks_from w 0 items) /\
   success_count (run_conversion w items) = count_ok w (tasks_from w 0 items) /\
   outcomes (gui_queue (run_conversion w items)) =
     task_ok w <$> tasks_from w 0 items /\
   logs (gui_queue (run_conversion w items)) =
     task_log w <$> tasks_from w 0 items /\
   exists q, gui_queue (run_conversion w items) =
             q ++ [Ev_message_all_converted; Ev_buttons_enable]).
Proof.
  split.
  - unfold run_conversion.
    destruct (conversion_loop_all_succeed items 0 init_worker init_worker)
      as [Ha Hr]; [done|].
    destruct (conversion_loop w items 0 init_worker) as [st reads].
    destruct (conversion_loop (all_succeed w) items 0 init_worker)
      as [st' reads'].
    cbn [fst snd all_succeed stop_is_set] in *. subst reads'. rewrite <-Ha.
    by destruct (stop_is_set w reads (length (attempted st))).
  - intros Hw.
    destruct (run_conversion_extends w items Hw)
      as [(Ha & Hs & Hf & Ho & Hl & _) Hq].
    cbn [init_worker attempted gui_queue success_count fail_count] in *.
    change (outcomes []) with (@nil bool) in Ho.
    change (logs []) with (@nil log_msg) in Hl.
    cbn [app] in *. by repeat split.
Qed.

End Isolation.

Lemma failures_are_isolated_witness :
  let w := never_stop (example_world 0) in
  let items := ["R/D/b.txt"; "R/D/a.py"] in
  never_stops w /\
  attempted (run_conversion w items) =
    [("R/D/b.txt", pdf); ("R/D/b.txt", txt);
     ("R/D/a.py", pdf); ("R/D/a.py", txt)] /\
  fail_count (run_conversion w items) = 1 /\
  success_count (run_conversion w items) = 3 /\
  outcomes (gui_queue (run_conversion w items)) = [true; false; true; true] /\
  logs (gui_queue (run_conversion w items)) =
    [Converted_to pdf "R/D/b.txt.pdf"; Failed_to_convert_unicode "R/D/b.txt";
     Converted_to pdf "R/D/a.py.pdf"; Converted_to txt "R/D/a.py.txt"].
Proof.
  intros w items.
  assert (never_stops w) as Hw by (intros r d; reflexivity).
  split; [exact Hw|].
  destruct (proj2 (failures_are_isolated w items) Hw)
    as (Ha & Hf & Hs & Ho & Hl & _).
  split; [exact Ha|]. split; [exact Hf|]. split; [exact Hs|].
  split; [exact Ho|exact Hl].
Defined.

(** ** C3: stopping a run *)

Section Stop.

Variable w : world.
Variable k : nat.
Hypothesis stop_after_k : stop_set_after k w.

Implicit Types (st : worker) (items : list string) (idx : nat).

Lemma attempted_put st e : attempted (put st e) = attempted st.
Proof. done. Qed.

Lemma tasks_from_never_stop items : forall idx,
  tasks_from (never_stop w) idx items = tasks_from w idx items.
Proof.
  induction items as [|a rest IH]; intros idx; [done|].
  cbn [tasks_from]. by rewrite IH.
Qed.

Lemma attempted_step idx a st :
  length (attempted (if isdir w idx a then st else convert_file w idx a st)) =
  length (attempted st) +
  length (if isdir w idx a then []
          else (fun f => (idx, a, f)) <$> formats_at w idx).
Proof.
  destruct (isdir w idx a); [cbn; lia|].
  by rewrite attempted_convert_file, length_app, !length_fmap.
Qed.

(** The loop goes through the first [i] items as a run without the stop
    button does, [i] being the first number of items whose tasks reach
    [k]; if an item is left, the stop notice follows. *)
Lemma conversion_loop_stop items : forall idx st,
  exists i,
    i <= length items /\
    conversion_loop w items idx st =
      (if bool_decide (i < length items)
       then (put (conversion_loop (never_stop w) (take i items) idx st).1
                 (Ev_log Conversion_stopped_by_user),
             S (idx + i))
       else ((conversion_loop (never_stop w) (take i items) idx st).1,
             idx + i)) /\
    (forall j, j < i ->
       length (attempted st) + length (tasks_from w idx (take j items)) < k) /\
    (i < length items ->
       k <= length (attempted st) + length (tasks_from w idx (take i items))).
Proof.
  induction items as [|a rest IH]; intros idx st.
  - exists 0. cbn. rewrite Nat.add_0_r. repeat split; lia.
  - cbn [conversion_loop]. rewrite stop_after_k.
    destruct (decide (k <= length (attempted st))) as [Hk|Hk].
    + rewrite bool_decide_eq_true_2 by done. exists 0.
      cbn [take length conversion_loop fst tasks_from].
      rewrite bool_decide_eq_true_2 by lia. rewrite !Nat.add_0_r.
      repeat split; lia.
    + rewrite bool_decide_eq_false_2 by done.
      destruct (IH (S idx) (if isdir w idx a then st
                            else convert_file w idx a st))
        as (i & Hi & Hloop & Hmin & Hreach).
      pose proof (attempted_step idx a st) as Hstep.
      exists (S i). cbn [take length conversion_loop never_stop stop_is_set isdir].
      change (convert_file (never_stop w) idx a st)
        with (convert_file w idx a st).
      split; [lia|]. split; [|split].
      * replace (S (idx + S i)) with (S (S idx + i)) by lia.
        replace (idx + S i) with (S idx + i) by lia.
        destruct (isdir w idx a); rewrite Hloop;
          destruct (decide (i < length rest));
          rewrite ?(bool_decide_eq_true_2 (i < _)),
            ?(bool_decide_eq_true_2 (S i < _)),
            ?(bool_decide_eq_false_2 (i < _)),
            ?(bool_decide_eq_false_2 (S i < _)) by lia; done.
      * intros [|j] Hj; cbn [take tasks_from]; [cbn; lia|].
        rewrite length_app. specialize (Hmin j). unfold task in *. lia.
      * intros Hlt. cbn [tasks_from]. rewrite length_app.
        unfold task in *. lia.
Qed.

(** C3, as the code has it: the stop flag is read once per file, before
    its first task.  With the flag set after task [k], the worker goes
    through the first [i] files as if it had not been stopped, [i] being
    the first number of files whose tasks reach [k]: it finishes the
    file task [k] belongs to and starts no later file.  Its counters are
    those of the tasks it attempted, and after their events it puts on
    the queue the stop notice, if a file was left, and the event that
    enables the controls again, nothing else. *)
Theorem stop_between_files (items : list string) :
  k <= length (tasks_from w 0 items) ->
  exists i st,
    i <= length items /\
    (forall j, j < i -> length (tasks_from w 0 (take j items)) < k) /\
    k <= length (tasks_from w 0 (take i items)) /\
    st = (conversion_loop (never_stop w) (take i items) 0 init_worker).1 /\
    attempted st = task_pair <$> tasks_from w 0 (take i items) /\
    success_count st = count_ok w (tasks_from w 0 (take i items)) /\
    fail_count st = count_failed w (tasks_from w 0 (take i items)) /\
    run_conversion w items =
      put (if bool_decide (i < length items)
           then put st (Ev_log Conversion_stopped_by_user) else st)
          Ev_buttons_enable.
Proof.
  intros Htotal.
  destruct (conversion_loop_stop items 0 init_worker)
    as (i & Hi & Hloop & Hmin & Hreach).
  cbn [init_worker attempted length] in Hmin, Hreach. cbn [Nat.add] in *.
  exists i, (conversion_loop (never_stop w) (take i items) 0 init_worker).1.
  assert (never_stops (never_stop w)) as Hw0 by (intros r d; reflexivity).
  destruct (conversion_loop_never_stops (never_stop w) (take i items) 0
              init_worker Hw0) as (st & Hst & Hext).
  rewrite Hst in *. cbn [fst] in *.
  rewrite tasks_from_never_stop in Hext.
  destruct Hext as (Ha & Hs & Hf & _).
  cbn [init_worker attempted success_count fail_count app] in Ha, Hs, Hf.
  assert (k <= length (tasks_from w 0 (take i items))) as Hk.
  { destruct (decide (i < length items)) as [Hlt|Hge]; [by apply Hreach|].
    by rewrite take_ge by lia. }
  split; [done|]. split; [done|]. split; [done|]. split; [done|].
  split; [done|]. split; [done|]. split; [done|].
  unfold run_conversion. rewrite Hloop.
  destruct (bool_decide (i < length items)); cbn [fst snd];
    rewrite stop_after_k, ?attempted_put, Ha, length_fmap,
      bool_decide_eq_true_2 by done; done.
Qed.

End Stop.

Lemma stop_between_files_witness :
  let w := example_world 3 in
  let items := ["R/D/a.py"; "R/D/b.txt"; "R/c.pdf"] in
  stop_set_after 3 w /\ 3 <= length (tasks_from w 0 items) /\
  exists i st,
    i <= length items /\
    (forall j, j < i -> length (tasks_from w 0 (take j items)) < 3) /\
    3 <= length (tasks_from w 0 (take i items)) /\
    st = (conversion_loop (never_stop w) (take i items) 0 init_worker).1 /\
    attempted st = task_pair <$> tasks_from w 0 (take i items) /\
    success_count st = count_ok w (tasks_from w 0 (take i items)) /\
    fail_count st = count_failed w (tasks_from w 0 (take i items)) /\
    run_conversion w items =
      put (if bool_decide (i < length items)
           then put st (Ev_log Conversion_stopped_by_user) else st)
          Ev_buttons_enable.
Proof.
  intros w items.
  assert (stop_set_after 3 w) as Hw by (intros r d; reflexivity).
  assert (3 <= length (tasks_from w 0 items)) as Hk by (vm_compute; lia).
  split; [exact Hw|]. split; [exact Hk|].
  exact (stop_between_files w 3 Hw items Hk).
Defined.

(** What the run of the witness gives: the flag is set after the third
    task, the PDF of [b.txt]; the text copy of [b.txt] is still
    attempted, and [c.pdf] is not. *)
Example stopped_run :
  let r := run_conversion (example_world 3)
             ["R/D/a.py"; "R/D/b.txt"; "R/c.pdf"] in
  attempted r = [("R/D/a.py", pdf); ("R/D/a.py", txt);
                 ("R/D/b.txt", pdf); ("R/D/b.txt", txt)] /\
  success_count r = 3 /\ fail_count r = 1 /\
  gui_queue r =
    [Ev_success 1; Ev_log (Converted_to pdf "R/D/a.py.pdf");
     Ev_success 2; Ev_log (Converted_to txt "R/D/a.py.txt");
     Ev_progress 1;
     Ev_success 3; Ev_log (Converted_to pdf "R/D/b.txt.pdf");
     Ev_fail 1; Ev_log (Failed_to_convert_unicode "R/D/b.txt");
     Ev_progress 1;
     Ev_log Conversion_stopped_by_user; Ev_buttons_enable].
Proof. by vm_compute. Qed.

(** C3 as it is worded fails: the flag is set after task 1, the PDF of
    [a.py], and the worker still starts task 2, the text copy. *)
Lemma second_task_starts_after_stop :
  stop_set_after 1 (example_world 1) /\
  attempted (run_conversion (example_world 1) ["R/D/a.py"; "R/D/b.txt"]) =
    [("R/D/a.py", pdf); ("R/D/a.py", txt)] /\
  success_count (run_conversion (example_world 1) ["R/D/a.py"; "R/D/b.txt"])
    = 2.
Proof. split; [intros r d; reflexivity|by vm_compute]. Qed.

(** ** C4: the selection the worker is given *)

Section Snapshot.

Implicit Types (t : tree) (c : controls) (items : list string).

Lemma selected_path_ext (f g : string -> bool) (it : item) :
  (forall a, f a = g a) -> selected_path f it = selected_path g it.
Proof.
  intros H. unfold selected_path. destruct (values it); [done|].
  by rewrite H.
Qed.

Lemma get_checked_items_ext (f g : string -> bool) t :
  (forall a, f a = g a) -> get_checked_items f t = get_checked_items g t.
Proof.
  intros H. rewrite !get_checked_items_visit.
  induction (flat_map visit (children t)) as [|it l IH]; [done|].
  cbn [omap list_omap]. by rewrite (selected_path_ext f g it H), IH.
Qed.

(** With no directory in the selection and the same formats throughout,
    the tasks are the files in their order, each with every format. *)
Lemma tasks_from_files (w : world) (F : list format) items : forall idx,
  (forall i a, isdir w i a = false) ->
  (forall i, formats_at w i = F) ->
  task_pair <$> tasks_from w idx items =
  flat_map (fun a => (fun f => (a, f)) <$> F) items.
Proof.
  intros idx Hdir HF. revert idx.
  induction items as [|a rest IH]; intros idx; [done|].
  cbn [tasks_from flat_map]. rewrite Hdir, HF, fmap_app, IH.
  by rewrite <-list_fmap_compose.
Qed.

(** C4, as the code has it: the selection is flattened again when the
    conversion is started, so the list handed to the worker is the
    checked-file list of the tree as the file system stands at that
    moment; the progress bar is sized by it.  It is the list counted at
    lock time when the file system answers as it did then.  The worker
    does not change the list: in a run that is not stopped, with no
    directory among the files, it attempts the files in the order of the
    list, each with every format asked for. *)
Theorem selection_flattened_at_start (isfile_lock isfile_start : string -> bool)
    t (confirm : bool) (dest_dir : option string) c c' items (d : string)
    (w : world) (F : list format) :
  on_start_conversion isfile_start t confirm dest_dir c = (c', Some (items, d)) ->
  items = get_checked_items isfile_start t /\
  progress_maximum c' = length items /\
  ((forall a, isfile_lock a = isfile_start a) ->
   items = get_checked_items isfile_lock t /\
   selected_label (lock_selection isfile_lock t c) = length items) /\
  (never_stops w -> (forall i a, isdir w i a = false) ->
   (forall i, formats_at w i = F) ->
   attempted (run_conversion w items) =
   flat_map (fun a => (fun f => (a, f)) <$> F) items).
Proof.
  unfold on_start_conversion. intros Hstart.
  destruct (get_checked_items isfile_start t) as [|a l] eqn:Hsel; [done|].
  destruct confirm; [|done]. destruct dest_dir as [d'|]; [|done].
  cbn [negb] in Hstart. injection Hstart as <- <- <-.
  split; [done|]. split; [done|]. split.
  - intros Hfs. rewrite (get_checked_items_ext _ _ t Hfs), Hsel.
    split; [done|]. unfold lock_selection.
    by rewrite (get_checked_items_ext _ _ t Hfs), Hsel.
  - intros Hw Hdir HF.
    destruct (run_conversion_extends w (a :: l) Hw) as [(Ha & _) _].
    rewrite Ha. cbn [init_worker attempted app].
    by apply tasks_from_files.
Qed.

End Snapshot.

Lemma selection_flattened_at_start_witness :
  let w := never_stop (example_world 0) in
  let items := ["R/D/a.py"; "R/D/b.txt"] in
  let c := lock_selection example_isfile checked_tree example_controls in
  on_start_conversion example_isfile checked_tree true (Some "out") c =
    (Controls false false false true false 2 2, Some (items, "out")) /\
  items = get_checked_items example_isfile checked_tree /\
  attempted (run_conversion w items) =
    [("R/D/a.py", pdf); ("R/D/a.py", txt);
     ("R/D/b.txt", pdf); ("R/D/b.txt", txt)].
Proof.
  intros w items c.
  assert (on_start_conversion example_isfile checked_tree true (Some "out") c =
          (Controls false false false true false 2 2, Some (items, "out")))
    as H by reflexivity.
  split; [exact H|].
  destruct (selection_flattened_at_start example_isfile example_isfile
              checked_tree true (Some "out") c _ items "out" w [pdf; txt] H)
    as (Hitems & _ & _ & Hrun).
  split; [exact Hitems|].
  apply Hrun;
    [intros r d; reflexivity | intros i a; reflexivity | intros i; reflexivity].
Defined.

(** C4 as it is worded fails: [R/D/b.txt] is removed after the selection
    was locked with two files; the list handed to the worker at the start
    holds one file, not the two counted at lock time. *)
Lemma file_removed_after_lock :
  let c := lock_selection example_isfile checked_tree example_controls in
  get_checked_items example_isfile checked_tree = ["R/D/a.py"; "R/D/b.txt"] /\
  selected_label c = 2 /\ start_button c = true /\ click_bound c = false /\
  on_start_conversion example_isfile_later checked_tree true (Some "out") c =
    (Controls false false false true false 2 1, Some (["R/D/a.py"], "out")).
Proof. by vm_compute. Qed.

(** ** A tree that was loaded and not clicked follows the rule *)

Lemma all_unchecked_consistentb (it : item) :
  all_unchecked it = true -> consistentb it = true.
Proof.
  induction it as [s vs tg cs IH] using item_children_ind. intros H.
  cbn [all_unchecked consistentb text_of tags children] in *.
  apply andb_prop in H as [Hself Hcs]. apply andb_true_intro. split.
  - apply bool_decide_eq_true. intros (Hb & Hne & Hall).
    cbn [text_of tags children] in *. rewrite Hb in Hself.
    apply bool_decide_eq_true in Hself as [Hm Ht].
    assert ((parent_state (text_of <$> cs)).2 = unchecked) as ->; [|done].
    apply (parent_state_uniform to_unchecked).
    + by destruct cs.
    + apply Forall_fmap. apply Forall_forall. intros c Hc.
      rewrite Forall_forall in Hall. specialize (Hall c Hc).
      rewrite forallb_forall in Hcs.
      specialize (Hcs c (proj1 (list_elem_of_In _ _) Hc)).
      destruct c as [s' vs' tg' cs']. cbn [all_unchecked text_of tags] in *.
      apply andb_prop in Hcs as [Hc' _]. rewrite Hall in Hc'.
      by apply bool_decide_eq_true in Hc' as [? _].
  - apply forallb_forall. intros c Hc. rewrite forallb_forall in Hcs.
    rewrite Forall_forall in IH.
    apply IH; [by apply list_elem_of_In|by apply Hcs].
Qed.

Example example_tree_all_unchecked : all_unchecked example_tree = true.
Proof. reflexivity. Qed.

(** * Further properties *)

(** ** Cascades compose: the last one wins *)

Section CascadeCompose.

Implicit Types (c : item) (n m : new_tag) (t : tree).

Lemma drop_box_of n (s : text) : drop 2 (box_of n ++ s) = s.
Proof. by destruct n. Qed.

Lemma update_child_update_child n m c :
  update_child n (update_child m c) = update_child n c.
Proof.
  induction c as [s vs tg cs IH] using item_children_ind.
  rewrite (update_child_unfold m), (update_child_unfold n (Item s vs tg cs)).
  cbn [text_of values tags children].
  destruct (has_checkbox s) eqn:Hs; [|by rewrite update_child_unfold; cbn; rewrite Hs].
  rewrite update_child_unfold. cbn [text_of values tags children].
  rewrite has_checkbox_box_of, drop_box_of. f_equal.
  rewrite <-list_fmap_compose. apply Forall_fmap_ext_1.
  eapply Forall_impl; [exact IH|]. intros c Hc. exact Hc.
Qed.

(** X1: a cascade over the children of an item undoes what an earlier
    cascade over them did: after [update_children] with one state and then
    with another the tree is as after the second alone.  In particular a
    cascade done twice is the cascade done once. *)
Theorem update_children_twice t parent n m :
  update_children (update_children t parent m) parent n =
  update_children t parent n.
Proof.
  unfold update_children. rewrite item_upd_upd. apply item_upd_ext.
  intros c _. unfold compose, with_children. cbn [text_of values tags children].
  f_equal. rewrite <-list_fmap_compose. apply list_fmap_ext.
  intros i x _. apply update_child_update_child.
Qed.

End CascadeCompose.

(** ** What a click changes, item by item *)

Section ClickPointwise.

Implicit Types (it c d : item) (p q r : list nat) (n : new_tag) (t : tree).

Lemma click_related_refl it : click_related it it.
Proof. repeat split; by left. Qed.

Lemma click_related_trans it1 it2 it3 :
  click_related it1 it2 -> click_related it2 it3 -> click_related it1 it3.
Proof.
  intros (Hv & Hd & Hl & Hc) (Hv' & Hd' & Hl' & Hc').
  split; [congruence|]. split; [congruence|]. split; [congruence|].
  destruct Hc' as [[Ht Hg]|(m & Hm & Hg & Hp)].
  - destruct Hc as [[Ht0 Hg0]|(m & Hm & Hg0 & Hp)].
    + left. split; congruence.
    + right. exists m. rewrite Ht, Hg. done.
  - right. exists m. split; [done|]. split; [done|].
    intros Hpart Hnil. apply (Hp Hpart).
    apply length_zero_iff_nil. rewrite Hl. by rewrite Hnil.
Qed.

Lemma click_sim_refl c : click_sim c c.
Proof. intros r d Hd. exists d. split; [done|apply click_related_refl]. Qed.

Lemma click_sim_trans c1 c2 c3 :
  click_sim c1 c2 -> click_sim c2 c3 -> click_sim c1 c3.
Proof.
  intros H12 H23 r d3 H3.
  destruct (H23 r d3 H3) as (d2 & H2 & R23).
  destruct (H12 r d2 H2) as (d1 & H1 & R12).
  exists d1. split; [done|]. by apply (click_related_trans d1 d2 d3).
Qed.

(** A change at [q] that is a simulation at the changed item is one of
    the whole tree. *)
Lemma click_sim_upd f t q :
  (forall c, item_get t q = Some c -> click_sim c (f c)) ->
  click_sim t (item_upd f t q).
Proof.
  intros Hf p d' Hget.
  destruct (path_cases p q)
    as [[r ->]|[(j & s & ->)|(a & x & y & p' & q' & Hxy & -> & ->)]].
  - rewrite item_get_upd_below in Hget.
    destruct (item_get t q) as [c|] eqn:Hc; [|done].
    destruct (Hf c eq_refl r d' Hget) as (d & Hd & HR).
    exists d. split; [|done]. by rewrite item_get_app, Hc.
  - rewrite item_get_upd_prefix in Hget.
    destruct (item_get t p) as [it0|] eqn:H0; [|done].
    injection Hget as <-. exists it0. split; [done|].
    unfold click_related. cbn [text_of values tags children].
    repeat split; [by rewrite length_alter|by left].
  - rewrite item_get_upd_beside in Hget by done.
    exists d'. split; [done|apply click_related_refl].
Qed.

Lemma click_sim_update_child n r : forall c d',
  item_get (update_child n c) r = Some d' ->
  exists d, item_get c r = Some d /\ click_related d d'.
Proof.
  induction r as [|i r IH]; intros c d' Hget.
  - injection Hget as <-. exists c. split; [done|].
    rewrite update_child_unfold.
    destruct (has_checkbox (text_of c)); [|apply click_related_refl].
    unfold click_related. cbn [text_of values tags children]. split; [done|].
    split; [apply drop_box_of|]. split; [by rewrite length_fmap|].
    right. exists (tag_of n). split; [apply mark_box_of|]. split; [done|].
    by destruct n.
  - rewrite update_child_unfold in Hget.
    destruct (has_checkbox (text_of c)).
    + rewrite item_get_cons in Hget. cbn [children] in Hget.
      rewrite list_lookup_fmap in Hget. rewrite item_get_cons.
      destruct (children c !! i) as [ci|]; [|done]. by apply IH.
    + exists d'. split; [done|apply click_related_refl].
Qed.

Lemma parent_state_partial_nonempty (ts : list text) :
  (parent_state ts).2 = partial -> ts <> [].
Proof. by intros H ->. Qed.

Lemma drop_parent_state (ts : list text) (s : text) :
  drop 2 ((parent_state ts).1 ++ s) = s.
Proof. by destruct (parent_state_cases ts) as [->|[->| ->]]. Qed.

Lemma click_sim_recompute c :
  click_sim c
    ((with_tags [(parent_state (text_of <$> children c)).2] ∘
      with_text ((parent_state (text_of <$> children c)).1
                 ++ drop 2 (text_of c))) c).
Proof.
  intros [|i r] d' Hget.
  - injection Hget as <-. exists c. split; [done|].
    unfold click_related.
    cbn [compose with_tags with_text text_of values tags children].
    split; [done|]. split; [apply drop_parent_state|]. split; [done|].
    right. exists (parent_state (text_of <$> children c)).2.
    split; [apply mark_parent_state|]. split; [done|].
    intros Hp Hnil. apply (parent_state_partial_nonempty _ Hp).
    by rewrite Hnil.
  - exists d'. split; [exact Hget|apply click_related_refl].
Qed.

Lemma click_sim_update_parent_check child : forall t,
  click_sim t (update_parent_check t child).
Proof.
  induction child as [|i parent IH]; intros t; [apply click_sim_refl|].
  cbn [update_parent_check].
  destruct parent as [|j parent']; [apply click_sim_refl|].
  destruct (tree_item t (j :: parent')) as [p|] eqn:Hp;
    [|apply click_sim_refl].
  destruct (parent_state (text_of <$> children p)) as [new_state new_tag] eqn:E.
  eapply click_sim_trans; [|apply IH].
  unfold set_tags, set_text. rewrite item_upd_upd.
  apply click_sim_upd. intros c Hc. unfold tree_item in Hp.
  rewrite Hp in Hc. injection Hc as <-.
  pose proof (click_sim_recompute p) as H. by rewrite E in H.
Qed.

Lemma click_sim_on_treeview_click t item :
  click_sim t (on_treeview_click t item).
Proof.
  unfold on_treeview_click.
  destruct item as [|i parent]; [apply click_sim_refl|].
  destruct (tree_item t (i :: parent)) as [it|] eqn:Hit;
    [|apply click_sim_refl].
  destruct (click_target (text_of it)) as [n|] eqn:Hn; [|apply click_sim_refl].
  eapply click_sim_trans; [|apply click_sim_update_parent_check].
  rewrite (click_cascade t (i :: parent) it n Hit)
    by (by apply (click_target_has_checkbox _ n)).
  apply click_sim_upd. intros c _ r d'. apply click_sim_update_child.
Qed.

Lemma click_sim_clicks items : forall t, click_sim t (clicks t items).
Proof.
  induction items as [|x items IH]; intros t; [apply click_sim_refl|].
  eapply click_sim_trans; [apply click_sim_on_treeview_click|apply IH].
Qed.

(** X3: clicks change marks and tags only.  After any sequence of clicks
    every item stands at an id that held an item before, with the same
    values, the same text after the mark and as many children. *)
Theorem clicks_keep_items t items p it' :
  item_get (clicks t items) p = Some it' ->
  exists it,
    item_get t p = Some it /\
    values it' = values it /\
    drop 2 (text_of it') = drop 2 (text_of it) /\
    length (children it') = length (children it).
Proof.
  intros Hget.
  destruct (click_sim_clicks items t p it' Hget) as (it & Hit & Hv & Hd & Hl & _).
  by exists it.
Qed.

(** X4: a click never makes an item without children partial: after any
    sequence of clicks an item without children that shows partial has
    not been touched, its text and tags being those it had. *)
Theorem leaf_never_made_partial t items p it' :
  item_get (clicks t items) p = Some it' ->
  children it' = [] ->
  mark (text_of it') = Some partial ->
  exists it,
    item_get t p = Some it /\ text_of it' = text_of it /\ tags it' = tags it.
Proof.
  intros Hget Hleaf Hm.
  destruct (click_sim_clicks items t p it' Hget)
    as (it & Hit & _ & _ & Hl & Hc).
  exists it. split; [done|].
  destruct Hc as [[Ht Hg]|(m & Hm' & _ & Hp)]; [done|].
  rewrite Hm in Hm'. injection Hm' as <-. destruct (Hp eq_refl).
  apply length_zero_iff_nil. rewrite <-Hl. by rewrite Hleaf.
Qed.

(** X5: the tag follows the mark.  If every item that shows a mark is
    tagged with that mark alone, this is still so after any sequence of
    clicks, so that [get_checked_items], which reads the tags, and
    [update_parent_check], which reads the texts, see the same states. *)
Theorem clicks_keep_tags_in_step t items :
  (forall p it m, item_get t p = Some it ->
                  mark (text_of it) = Some m -> tags it = [m]) ->
  forall p it m, item_get (clicks t items) p = Some it ->
                 mark (text_of it) = Some m -> tags it = [m].
Proof.
  intros Ht p it' m Hget Hm.
  destruct (click_sim_clicks items t p it' Hget)
    as (it & Hit & _ & _ & _ & Hc).
  destruct Hc as [[Htext Hg]|(m' & Hm' & Hg & _)].
  - rewrite Hg. apply (Ht p it m Hit). by rewrite <-Htext.
  - rewrite Hm in Hm'. by injection Hm' as <-.
Qed.

End ClickPointwise.

(** ** What a click leaves alone *)

Section ClickFrame.

Implicit Types (it c d : item) (p q r s : list nat) (n : new_tag) (t : tree).

(** [update_parent_check] changes items above its starting point only. *)
Lemma update_parent_check_elsewhere child : forall t p,
  (forall s, s <> [] -> reverse child <> p ++ s) ->
  item_get (update_parent_check t child) p = item_get t p.
Proof.
  induction child as [|i parent IH]; intros t p Hp; [done|].
  cbn [update_parent_check]. destruct parent as [|j parent']; [done|].
  destruct (tree_item t (j :: parent')) as [it|]; [|done].
  destruct (parent_state (text_of <$> children it)) as [new_state new_tag].
  rewrite (reverse_cons _ i) in Hp.
  rewrite IH.
  - unfold set_tags, set_text. rewrite item_upd_upd.
    destruct (path_cases p (reverse (j :: parent')))
      as [[r ->]|[(k & s & Hq)|(a & x & y & p' & q' & Hxy & -> & Hq)]].
    + destruct r as [|k r].
      * destruct (Hp [i]); [done|]. by rewrite app_nil_r.
      * by rewrite item_get_upd_strictly_below.
    + destruct (Hp ((k :: s) ++ [i])); [by destruct s|].
      by rewrite Hq, <-app_assoc.
    + by rewrite Hq, item_get_upd_beside.
  - intros s Hs Heq. apply (Hp (s ++ [i])); [by destruct s|].
    by rewrite Heq, <-app_assoc.
Qed.

(** X2: a click changes nothing beside the path of the clicked item: an
    id that is neither the clicked item, nor below it, nor above it holds
    after the click the item it held before, with all below it. *)
Theorem click_leaves_other_branches t item p :
  (forall s, reverse item <> p ++ s) ->
  (forall r, p <> reverse item ++ r) ->
  item_get (on_treeview_click t item) p = item_get t p.
Proof.
  intros Habove Hbelow. unfold on_treeview_click.
  destruct item as [|i parent]; [done|].
  destruct (tree_item t (i :: parent)) as [it|] eqn:Hit; [|done].
  destruct (click_target (text_of it)) as [n|] eqn:Hn; [|done].
  rewrite update_parent_check_elsewhere by (intros s _; apply Habove).
  rewrite (click_cascade t (i :: parent) it n Hit)
    by (by apply (click_target_has_checkbox _ n)).
  destruct (path_cases p (reverse (i :: parent)))
    as [[r Hr]|[(k & s & Hq)|(a & x & y & p' & q' & Hxy & -> & Hq)]].
  - by destruct (Hbelow r).
  - by destruct (Habove (k :: s)).
  - by rewrite Hq, item_get_upd_beside.
Qed.

Lemma click_leaves_other_branches_witness :
  (forall s, reverse [0; 0; 0] <> [0; 1] ++ s) /\
  (forall r, [0; 1] <> reverse [0; 0; 0] ++ r) /\
  item_get (on_treeview_click example_tree [0; 0; 0]) [0; 1] =
  item_get example_tree [0; 1].
Proof.
  assert (forall s, reverse [0; 0; 0] <> [0; 1] ++ s) as H1
    by (intros s; vm_compute; discriminate).
  assert (forall r, [0; 1] <> reverse [0; 0; 0] ++ r) as H2
    by (intros r; vm_compute; discriminate).
  split; [exact H1|]. split; [exact H2|].
  exact (click_leaves_other_branches example_tree [0; 0; 0] [0; 1] H1 H2).
Defined.

Lemma clicks_keep_items_witness :
  exists it',
    item_get (clicks example_tree [[0; 0; 0]; [1; 0]]) [0; 0] = Some it' /\
    exists it,
      item_get example_tree [0; 0] = Some it /\
      values it' = values it /\
      drop 2 (text_of it') = drop 2 (text_of it) /\
      length (children it') = length (children it).
Proof.
  eexists. split; [vm_compute; reflexivity|].
  apply (clicks_keep_items example_tree [[0; 0; 0]; [1; 0]] [0; 0]).
  vm_compute; reflexivity.
Defined.

(** An item without children that was partial to begin with: a click
    elsewhere leaves it so. *)
Lemma leaf_never_made_partial_witness :
  let t := Item [] [] []
             [Item (box_partial ++ u "x") ["x"] [partial] [];
              Item (box_unchecked ++ u "y") ["y"] [unchecked] []] in
  exists it',
    item_get (clicks t [[1]]) [0] = Some it' /\
    children it' = [] /\ mark (text_of it') = Some partial /\
    exists it,
      item_get t [0] = Some it /\ text_of it' = text_of it /\
      tags it' = tags it.
Proof.
  intros t. eexists. split; [vm_compute; reflexivity|].
  split; [reflexivity|]. split; [vm_compute; reflexivity|].
  apply (leaf_never_made_partial t [[1]] [0]);
    [vm_compute; reflexivity | reflexivity | vm_compute; reflexivity].
Defined.

Lemma all_unchecked_tags p : forall it0 it m,
  all_unchecked it0 = true -> item_get it0 p = Some it ->
  mark (text_of it) = Some m -> tags it = [m].
Proof.
  induction p as [|i p IH]; intros it0 it m Hall Hget Hm.
  - injection Hget as <-. destruct it0 as [s vs tg cs].
    cbn [all_unchecked text_of tags] in *.
    apply andb_prop in Hall as [Hself _].
    assert (has_checkbox s = true) as Hb
      by (apply has_checkbox_mark; by rewrite Hm).
    rewrite Hb in Hself. apply bool_decide_eq_true in Hself as [Hu ->].
    rewrite Hm in Hu. by injection Hu as ->.
  - rewrite item_get_cons in Hget.
    destruct (children it0 !! i) as [c|] eqn:Hc; [|done].
    apply (IH c it m); [|done..]. destruct it0 as [s vs tg cs].
    cbn [all_unchecked children] in *.
    apply andb_prop in Hall as [_ Hall]. rewrite forallb_forall in Hall.
    apply Hall. apply list_elem_of_In. by eapply list_elem_of_lookup_2.
Qed.

Lemma clicks_keep_tags_in_step_witness :
  (forall p it m, item_get example_tree p = Some it ->
                  mark (text_of it) = Some m -> tags it = [m]) /\
  forall p it m,
    item_get (clicks example_tree [[0; 0; 0]; [1; 0]]) p = Some it ->
    mark (text_of it) = Some m -> tags it = [m].
Proof.
  assert (forall p it m, item_get example_tree p = Some it ->
                         mark (text_of it) = Some m -> tags it = [m]) as H.
  { intros p it m. apply all_unchecked_tags. vm_compute; reflexivity. }
  split; [exact H|].
  exact (clicks_keep_tags_in_step example_tree [[0; 0; 0]; [1; 0]] H).
Defined.

End ClickFrame.

(** ** Ingesting scan results *)

Section Ingest.

Variable basename : string -> string.

Implicit Types (it c : item) (p q r : list nat) (t : tree) (e : tree_entry).

(** An item of the queue whose parent is in the tree appends one item to
    the children of the parent. *)
Lemma process_tree_entry_append t e t' :
  process_tree_entry basename t e = Some t' ->
  exists par,
    tree_item t (te_parent e) = Some par /\
    t' = item_upd
           (fun it => with_children (children it ++ [new_item basename e]) it)
           t (reverse (te_parent e)).
Proof.
  intros He. destruct e as [k path parent].
  destruct (tree_item t parent) as [par|] eqn:Hpar.
  - exists par. split; [done|]. destruct k.
    + rewrite (process_tree_entry_directory _ _ _ _ par Hpar) in He.
      by injection He as <-.
    + unfold process_tree_entry, tree_insert in He.
      cbn [te_parent te_kind te_path] in He. rewrite Hpar in He.
      by injection He as <-.
  - unfold process_tree_entry in He. cbn [te_parent] in He.
    by rewrite Hpar in He.
Qed.

(** X6: ingesting an item of the queue keeps every item of the tree at
    its id with its text, values and tags, and puts the new item, with
    the placeholder below it when it is a directory, behind the last
    child of the parent. *)
Theorem ingest_keeps_items t e t' :
  process_tree_entry basename t e = Some t' ->
  (forall p it, item_get t p = Some it ->
     exists it', item_get t' p = Some it' /\ label it' = label it) /\
  exists par par',
    tree_item t (te_parent e) = Some par /\
    tree_item t' (te_parent e) = Some par' /\
    children par' = children par ++ [new_item basename e] /\
    item_get t' (reverse (te_parent e) ++ [length (children par)]) =
      Some (new_item basename e).
Proof.
  intros He. destruct (process_tree_entry_append t e t' He) as (par & Hpar & ->).
  unfold tree_item in *. split.
  - intros p it Hit.
    destruct (path_cases p (reverse (te_parent e)))
      as [[r ->]|[(j & s & Hq)|(a & x & y & p' & q' & Hxy & -> & Hq)]].
    + rewrite item_get_upd_below, Hpar.
      rewrite item_get_app, Hpar in Hit.
      destruct r as [|i r].
      * injection Hit as <-. by eexists.
      * rewrite item_get_cons in *. cbn [with_children children].
        destruct (children par !! i) as [ci|] eqn:Hi; [|done].
        rewrite (lookup_app_l_Some _ _ _ _ Hi). by exists it.
    + rewrite Hq, item_get_upd_prefix, Hit. by eexists.
    + rewrite Hq, item_get_upd_beside by done. by exists it.
  - exists par. eexists. split; [done|].
    split; [by rewrite item_get_upd_same, Hpar|]. split; [done|].
    rewrite item_get_upd_below, Hpar, item_get_cons.
    cbn [with_children children]. by rewrite list_lookup_middle.
Qed.

Section Selection.

Variable isfile : string -> bool.

Lemma new_item_not_selected e :
  omap (selected_path isfile) (visit (new_item basename e)) = [].
Proof. destruct e as [[|] path parent]; reflexivity. Qed.

Lemma omap_visit_alter (g : item -> item) i (cs : list item) :
  (forall c, omap (selected_path isfile) (visit (g c)) =
             omap (selected_path isfile) (visit c)) ->
  omap (selected_path isfile) (flat_map visit (alter g i cs)) =
  omap (selected_path isfile) (flat_map visit cs).
Proof.
  intros Hg. revert i. induction cs as [|c cs IH]; intros i; [done|].
  destruct i as [|i]; cbn [alter list_alter flat_map]; rewrite !omap_app.
  - by rewrite Hg.
  - f_equal. apply IH.
Qed.

Lemma omap_visit_item (s s' : text) vs tg (cs cs' : list item) :
  omap (selected_path isfile) (flat_map visit cs') =
  omap (selected_path isfile) (flat_map visit cs) ->
  omap (selected_path isfile) (visit (Item s' vs tg cs')) =
  omap (selected_path isfile) (visit (Item s vs tg cs)).
Proof.
  intros H. cbn [visit values children]. destruct vs as [|a vs]; [done|].
  cbn [omap list_omap].
  change (selected_path isfile (Item s' (a :: vs) tg cs'))
    with (selected_path isfile (Item s (a :: vs) tg cs)).
  by rewrite H.
Qed.

(** Appending an item that contributes nothing, anywhere in the tree,
    leaves the paths an item contributes as they are. *)
Lemma omap_visit_append (new : item) q : forall it,
  omap (selected_path isfile) (visit new) = [] ->
  omap (selected_path isfile)
       (visit (item_upd (fun c => with_children (children c ++ [new]) c) it q))
  = omap (selected_path isfile) (visit it).
Proof.
  induction q as [|i q IH]; intros it Hnew.
  - destruct it as [s vs tg cs]. cbn [item_upd with_children text_of values
      tags children]. apply omap_visit_item.
    rewrite flat_map_app, omap_app. cbn [flat_map].
    by rewrite app_nil_r, Hnew, app_nil_r.
  - rewrite item_upd_cons. destruct it as [s vs tg cs].
    cbn [text_of values tags children]. apply omap_visit_item.
    apply omap_visit_alter. intros c. by apply IH.
Qed.

(** After an item of the queue is put in the tree [get_checked_items]
    gives the list it gave before. *)
Lemma ingest_keeps_selection t e t' :
  process_tree_entry basename t e = Some t' ->
  get_checked_items isfile t' = get_checked_items isfile t.
Proof.
  intros He. destruct (process_tree_entry_append t e t' He) as (par & _ & ->).
  rewrite !get_checked_items_visit.
  destruct (reverse (te_parent e)) as [|i q].
  - cbn [item_upd with_children children].
    rewrite flat_map_app, omap_app. cbn [flat_map].
    by rewrite app_nil_r, new_item_not_selected, app_nil_r.
  - rewrite item_upd_cons. cbn [children]. apply omap_visit_alter.
    intros c. apply omap_visit_append, new_item_not_selected.
Qed.

End Selection.

(** X7: [process_tree_queue] either empties the queue and reports
    nothing, or stops at the first item whose parent is not in the tree:
    the items before it are in the tree, that item is dropped, one error
    is logged and the items behind it stay on the queue.  Either way the
    selection is the one of the tree it started from. *)
Theorem process_tree_queue_outcome (isfile : string -> bool) t queue t' rest
    events :
  process_tree_queue basename t queue = (t', rest, events) ->
  get_checked_items isfile t' = get_checked_items isfile t /\
  ((rest = [] /\ events = []) \/
   (events = [Ev_log Error_processing_tree_queue] /\
    exists before bad,
      queue = before ++ bad :: rest /\
      process_tree_queue basename t before = (t', [], []) /\
      tree_item t' (te_parent bad) = None)) /\
  length rest <= length queue.
Proof.
  revert t. induction queue as [|e queue IH]; intros t Hq.
  - injection Hq as <- <- <-. split; [done|]. split; [|done].
    by left.
  - cbn [process_tree_queue] in Hq.
    destruct (process_tree_entry basename t e) as [t1|] eqn:He.
    + destruct (IH t1 Hq) as (Hsel & Hcase & Hlen).
      split; [by rewrite Hsel, (ingest_keeps_selection isfile t e t1 He)|].
      split; [|cbn [length]; lia].
      destruct Hcase as [Hdone|(Hev & before & bad & Hqueue & Hbefore & Hbad)];
        [by left|].
      right. split; [done|]. exists (e :: before), bad.
      split; [by rewrite Hqueue|]. split; [|done].
      cbn [process_tree_queue]. by rewrite He.
    + injection Hq as <- <- <-. split; [done|]. split; [|cbn [length]; lia].
      right. split; [done|]. exists [], e. split; [done|]. split; [done|].
      unfold process_tree_entry in He.
      destruct (tree_item t (te_parent e)); [|done].
      destruct (te_kind e); [|done].
      by destruct (tree_insert _ _ _ _ _).
Qed.

End Ingest.

Lemma ingest_keeps_items_witness :
  let e := Tree_entry directory "R/lib" [0] in
  exists t',
    process_tree_entry posix_basename unloaded_tree e = Some t' /\
    (forall p it, item_get unloaded_tree p = Some it ->
       exists it', item_get t' p = Some it' /\ label it' = label it) /\
    exists par par',
      tree_item unloaded_tree (te_parent e) = Some par /\
      tree_item t' (te_parent e) = Some par' /\
      children par' = children par ++ [new_item posix_basename e] /\
      item_get t' (reverse (te_parent e) ++ [length (children par)]) =
        Some (new_item posix_basename e).
Proof.
  intros e. eexists. split; [vm_compute; reflexivity|].
  eapply (ingest_keeps_items posix_basename unloaded_tree e).
  vm_compute. reflexivity.
Defined.

Lemma process_tree_queue_outcome_witness :
  let queue := [Tree_entry file "R/a.py" [0];
                Tree_entry file "R/x/b.py" [7; 0];
                Tree_entry directory "R/lib" [0]] in
  exists t' rest events,
    process_tree_queue posix_basename checked_tree queue = (t', rest, events) /\
    rest = [Tree_entry directory "R/lib" [0]] /\
    get_checked_items example_isfile t' =
      get_checked_items example_isfile checked_tree /\
    ((rest = [] /\ events = []) \/
     (events = [Ev_log Error_processing_tree_queue] /\
      exists before bad,
        queue = before ++ bad :: rest /\
        process_tree_queue posix_basename checked_tree before = (t', [], []) /\
        tree_item t' (te_parent bad) = None)) /\
    length rest <= length queue.
Proof.
  intros queue. eexists _, _, _. split; [vm_compute; reflexivity|].
  split; [reflexivity|].
  eapply (process_tree_queue_outcome posix_basename example_isfile checked_tree
            queue).
  vm_compute. reflexivity.
Defined.

(** ** Cancelling a scan *)

Section ScanCancel.

Variable stop_is_set : nat -> bool.
Variable parent_node : iid.

(** A scan in which no entry raises, up to the first read that finds the
    stop flag set. *)
Lemma scan_until_stopped (abspath : string) (entries : list dir_entry)
    (k : nat) :
  k <= length entries ->
  (forall j, j < k -> stop_is_set j = false) ->
  (k < length entries -> stop_is_set k = true) ->
  Forall (fun e => entry_raises e = None) (take k entries) ->
  scan_and_enqueue_children stop_is_set parent_node abspath (Ok entries) =
  (omap (entry_of parent_node) (take k entries),
   match omap (entry_of parent_node) (take k entries) with
   | [] => [Ev_log (No_eligible_found abspath)]
   | _ :: _ => []
   end).
Proof.
  intros Hk Hbefore Hat Hraise.
  unfold scan_and_enqueue_children.
  rewrite <-(take_drop k entries) at 1.
  rewrite scan_entries_prefix; [|intros j Hj; apply Hbefore|done].
  2: { rewrite length_take in Hj. lia. }
  rewrite length_take, Nat.min_l by done. cbn [Nat.add tree_queue enqueued app orb].
  assert (scan_entries stop_is_set parent_node (drop k entries) k
            (Scan_state (omap (entry_of parent_node) (take k entries))
               (bool_decide (omap (entry_of parent_node) (take k entries)
                             <> []))) =
          (Scan_state (omap (entry_of parent_node) (take k entries))
               (bool_decide (omap (entry_of parent_node) (take k entries)
                             <> [])), None)) as ->.
  { destruct (drop k entries) as [|e rest] eqn:Hdrop; [done|].
    cbn [scan_entries]. rewrite Hat; [done|].
    apply (f_equal length) in Hdrop. rewrite length_drop in Hdrop.
    cbn [length] in Hdrop. lia. }
  cbn [tree_queue enqueued].
  destruct (omap (entry_of parent_node) (take k entries)) as [|y ys].
  - by rewrite bool_decide_eq_false_2 by (by intros H).
  - by rewrite bool_decide_eq_true_2 by done.
Qed.

(** Every item a scan delivers names the node that was expanded. *)
Lemma entry_of_parent (entries : list dir_entry) :
  Forall (fun x => te_parent x = parent_node)
         (omap (entry_of parent_node) entries).
Proof.
  apply Forall_forall. intros x Hx.
  apply list_elem_of_omap in Hx as (e & _ & He). unfold entry_of in He.
  destruct (entry_is_dir e) as [[|]|]; [by injection He as <-| |done].
  destruct (entry_is_file e) as [[|]|]; [by injection He as <-|done|done].
Qed.

(** X8: a scan in which no entry raises handles the entries before the
    first read that finds the stop flag set, or all of them when no read
    does: it delivers, in the order of the listing, an item for each of
    those entries that is a directory or a regular file, each under the
    node that was expanded, and nothing for the others; it reports
    nothing, except that nothing eligible was found when it delivered
    nothing. *)
Theorem scan_delivers_until_stopped (abspath : string)
    (entries : list dir_entry) (k : nat) :
  k <= length entries ->
  (forall j, j < k -> stop_is_set j = false) ->
  (k < length entries -> stop_is_set k = true) ->
  Forall (fun e => entry_raises e = None) (take k entries) ->
  scan_and_enqueue_children stop_is_set parent_node abspath (Ok entries) =
  (omap (entry_of parent_node) (take k entries),
   match omap (entry_of parent_node) (take k entries) with
   | [] => [Ev_log (No_eligible_found abspath)]
   | _ :: _ => []
   end) /\
  Forall (fun x => te_parent x = parent_node)
         (omap (entry_of parent_node) (take k entries)).
Proof.
  intros Hk Hbefore Hat Hraise.
  split; [by apply scan_until_stopped|apply entry_of_parent].
Qed.

End ScanCancel.

Lemma scan_delivers_until_stopped_witness :
  let entries := [Dir_entry "R/D" (Ok true) (Ok false);
                  Dir_entry "R/link" (Ok false) (Ok false);
                  Dir_entry "R/c.pdf" (Ok false) (Ok true);
                  Dir_entry "R/z.py" (Ok false) (Ok true)] in
  let stop := fun j => bool_decide (3 <= j) in
  3 <= length entries /\
  (forall j, j < 3 -> stop j = false) /\
  (3 < length entries -> stop 3 = true) /\
  Forall (fun e => entry_raises e = None) (take 3 entries) /\
  scan_and_enqueue_children stop [0] "R" (Ok entries) =
  ([Tree_entry directory "R/D" [0]; Tree_entry file "R/c.pdf" [0]], []).
Proof.
  intros entries stop.
  assert (3 <= length entries) as H1 by (cbn; lia).
  assert (forall j, j < 3 -> stop j = false) as H2.
  { intros j Hj. unfold stop. apply bool_decide_eq_false_2. lia. }
  assert (3 < length entries -> stop 3 = true) as H3 by reflexivity.
  assert (Forall (fun e => entry_raises e = None) (take 3 entries)) as H4
    by (repeat constructor).
  split; [exact H1|]. split; [exact H2|]. split; [exact H3|].
  split; [exact H4|].
  exact (proj1 (scan_delivers_until_stopped stop [0] "R" entries 3
                  H1 H2 H3 H4)).
Defined.

(** ** Runs under any behaviour of the stop flag *)

Section AnyRun.

Variable w : world.

Implicit Types (st : worker) (items : list string) (idx : nat).

Lemma files_from_never_stop items : forall idx,
  files_from (never_stop w) idx items = files_from w idx items.
Proof.
  induction items as [|a rest IH]; intros idx; [done|].
  cbn [files_from]. by rewrite IH.
Qed.

(** The loop handles a prefix of the selection as a run without the stop
    button does, and says so when it stops short. *)
Lemma conversion_loop_prefix items : forall idx st,
  exists i,
    i <= length items /\
    conversion_loop w items idx st =
      (if bool_decide (i < length items)
       then (put (conversion_loop (never_stop w) (take i items) idx st).1
                 (Ev_log Conversion_stopped_by_user),
             S (idx + i))
       else ((conversion_loop (never_stop w) (take i items) idx st).1,
             idx + i)).
Proof.
  induction items as [|a rest IH]; intros idx st.
  - exists 0. cbn. by rewrite Nat.add_0_r.
  - cbn [conversion_loop].
    destruct (stop_is_set w idx (length (attempted st))).
    + exists 0. cbn [take length conversion_loop fst].
      rewrite bool_decide_eq_true_2 by lia. rewrite Nat.add_0_r.
      split; [lia|done].
    + destruct (IH (S idx) (if isdir w idx a then st
                            else convert_file w idx a st)) as (i & Hi & Hloop).
      exists (S i).
      cbn [take length conversion_loop never_stop stop_is_set isdir].
      change (convert_file (never_stop w) idx a st)
        with (convert_file w idx a st).
      split; [lia|].
      replace (S (idx + S i)) with (S (S idx + i)) by lia.
      replace (idx + S i) with (S idx + i) by lia.
      destruct (isdir w idx a); rewrite Hloop;
        destruct (decide (i < length rest));
        rewrite ?(bool_decide_eq_true_2 (i < _)),
          ?(bool_decide_eq_true_2 (S i < _)),
          ?(bool_decide_eq_false_2 (i < _)),
          ?(bool_decide_eq_false_2 (S i < _)) by lia; done.
Qed.

Lemma outcomes_put st e :
  outcomes (gui_queue (put st e)) = outcomes (gui_queue st) ++ outcomes [e].
Proof. unfold put, outcomes. cbn [gui_queue]. by rewrite omap_app. Qed.

Lemma logs_put st e :
  logs (gui_queue (put st e)) = logs (gui_queue st) ++ logs [e].
Proof. unfold put, logs. cbn [gui_queue]. by rewrite omap_app. Qed.

Lemma progress_steps_put st e :
  progress_steps (gui_queue (put st e)) =
  progress_steps (gui_queue st) ++ progress_steps [e].
Proof. unfold put, progress_steps. cbn [gui_queue]. by rewrite omap_app. Qed.

(** X9: whatever the stop flag does, a run handles the first [i] files
    of the selection in full and nothing of the others, for some [i]: the
    tasks it attempts are the tasks of those files, it counts the
    successes and the failures among them, reports each of them once and
    steps the progress bar once per file handled; it logs the stop notice
    exactly when it leaves files out. *)
Theorem run_handles_a_prefix (items : list string) :
  exists i,
    i <= length items /\
    attempted (run_conversion w items) =
      task_pair <$> tasks_from w 0 (take i items) /\
    success_count (run_conversion w items) =
      count_ok w (tasks_from w 0 (take i items)) /\
    fail_count (run_conversion w items) =
      count_failed w (tasks_from w 0 (take i items)) /\
    outcomes (gui_queue (run_conversion w items)) =
      task_ok w <$> tasks_from w 0 (take i items) /\
    progress_steps (gui_queue (run_conversion w items)) =
      replicate (length (files_from w 0 (take i items))) 1 /\
    logs (gui_queue (run_conversion w items)) =
      (task_log w <$> tasks_from w 0 (take i items)) ++
      (if bool_decide (i < length items)
       then [Conversion_stopped_by_user] else []).
Proof.
  destruct (conversion_loop_prefix items 0 init_worker) as (i & Hi & Hloop).
  exists i. split; [done|].
  assert (never_stops (never_stop w)) as Hw0 by (intros r d; reflexivity).
  destruct (conversion_loop_never_stops (never_stop w) (take i items) 0
              init_worker Hw0) as (st & Hst & Hext).
  rewrite Hst in Hloop. cbn [fst] in Hloop.
  rewrite tasks_from_never_stop, files_from_never_stop in Hext.
  destruct Hext as (Ha & Hs & Hf & Ho & Hl & Hp).
  cbn [init_worker attempted success_count fail_count gui_queue] in *.
  change (outcomes []) with (@nil bool) in Ho.
  change (logs []) with (@nil log_msg) in Hl.
  change (progress_steps []) with (@nil nat) in Hp.
  cbn [app Nat.add] in *.
  unfold run_conversion. rewrite Hloop.
  destruct (bool_decide (i < length items)); cbn [fst snd];
    match goal with
    | |- context [negb ?b] => destruct b
    end; cbn [negb];
    rewrite ?outcomes_put, ?logs_put, ?progress_steps_put, ?attempted_put;
    cbn [put attempted success_count fail_count];
    rewrite ?Ha, ?Hs, ?Hf, ?Ho, ?Hl, ?Hp;
    cbn; rewrite ?app_nil_r; done.
Qed.

End AnyRun.

(** ** Draining the event queue *)

Section Drain.

Implicit Types (c : controls) (d : display) (q : list gui_event)
  (st : worker).

Lemma process_gui_queue_snoc c d q e :
  process_gui_queue c d (q ++ [e]) =
  process_gui_event (process_gui_queue c d q) e.
Proof. unfold process_gui_queue. by rewrite fold_left_app. Qed.

Lemma totals_snoc q e s f :
  totals (q ++ [e]) s f =
  match e with
  | Ev_success n => (n, (totals q s f).2)
  | Ev_fail n => ((totals q s f).1, n)
  | _ => totals q s f
  end.
Proof. unfold totals. by rewrite fold_left_app. Qed.

(** What the display holds after a drain, read off the queue. *)
Lemma process_gui_queue_display q : forall c d,
  success_label (process_gui_queue c d q).2 =
    (totals q (success_label d) (fail_label d)).1 /\
  fail_label (process_gui_queue c d q).2 =
    (totals q (success_label d) (fail_label d)).2 /\
  log_area (process_gui_queue c d q).2 = log_area d ++ logs q /\
  stepped (process_gui_queue c d q).2 = stepped d + progress_value q.
Proof.
  induction q as [|e q IH] using rev_ind; intros c d.
  - cbn. by rewrite app_nil_r, Nat.add_0_r.
  - rewrite process_gui_queue_snoc, totals_snoc, progress_value_app.
    unfold logs. rewrite omap_app. fold (logs q).
    destruct (IH c d) as (Hs & Hf & Hl & Hp).
    destruct (process_gui_queue c d q) as [c' d'].
    cbn [snd] in *.
    destruct e; cbn [process_gui_event snd fst success_label fail_label
                     log_area stepped omap list_omap];
      rewrite ?Hs, ?Hf, ?Hl, ?Hp, ?app_nil_r, <-?app_assoc;
      cbn; repeat split; try done; lia.
Qed.

(** The drain touches the select, start and stop buttons only. *)
Lemma process_gui_queue_controls q : forall c d,
  lock_button (process_gui_queue c d q).1 = lock_button c /\
  click_bound (process_gui_queue c d q).1 = click_bound c /\
  selected_label (process_gui_queue c d q).1 = selected_label c /\
  progress_maximum (process_gui_queue c d q).1 = progress_maximum c.
Proof.
  induction q as [|e q IH] using rev_ind; intros c d; [done|].
  rewrite process_gui_queue_snoc. destruct (IH c d) as (H1 & H2 & H3 & H4).
  destruct (process_gui_queue c d q) as [c' d']. cbn [fst] in *.
  by destruct e.
Qed.

Lemma totals_agree_put st e :
  match e with Ev_success _ | Ev_fail _ => False | _ => True end ->
  totals_agree st -> totals_agree (put st e).
Proof.
  unfold totals_agree, put. cbn [gui_queue success_count fail_count].
  intros He H. rewrite totals_snoc. by destruct e.
Qed.

Lemma totals_agree_succeed st m :
  totals_agree st -> totals_agree (succeed st m).
Proof.
  unfold totals_agree, succeed, put.
  cbn [gui_queue success_count fail_count]. intros H.
  rewrite !totals_snoc. cbn [fst snd]. by rewrite H.
Qed.

Lemma totals_agree_fail st m :
  totals_agree st -> totals_agree (fail st m).
Proof.
  unfold totals_agree, fail, put.
  cbn [gui_queue success_count fail_count]. intros H.
  rewrite !totals_snoc. cbn [fst snd]. by rewrite H.
Qed.

Lemma totals_agree_convert_file (w : world) idx source_file st :
  totals_agree st -> totals_agree (convert_file w idx source_file st).
Proof.
  intros H. unfold convert_file. apply totals_agree_put; [done|].
  assert (forall st', totals_agree st' ->
            totals_agree (convert_pdf w idx source_file st')) as Hpdf.
  { intros st' H'. unfold convert_pdf.
    destruct (pdf_try w idx source_file);
      [apply totals_agree_succeed|apply totals_agree_fail]; exact H'. }
  assert (forall st', totals_agree st' ->
            totals_agree (convert_txt w idx source_file st')) as Htxt.
  { intros st' H'. unfold convert_txt.
    destruct (txt_try w idx source_file);
      [apply totals_agree_succeed|apply totals_agree_fail
      |apply totals_agree_fail]; exact H'. }
  destruct (bool_decide (pdf ∈ formats_at w idx)),
    (bool_decide (txt ∈ formats_at w idx)); auto.
Qed.

Lemma totals_agree_loop (w : world) items : forall idx st,
  totals_agree st -> totals_agree (conversion_loop w items idx st).1.
Proof.
  induction items as [|a rest IH]; intros idx st H; [done|].
  cbn [conversion_loop].
  destruct (stop_is_set w idx (length (attempted st)));
    [by apply totals_agree_put|].
  destruct (isdir w idx a); [by apply IH|].
  by apply IH, totals_agree_convert_file.
Qed.

Lemma totals_agree_run (w : world) items :
  totals_agree (run_conversion w items).
Proof.
  unfold run_conversion.
  pose proof (totals_agree_loop w items 0 init_worker eq_refl) as H.
  destruct (conversion_loop w items 0 init_worker) as [st reads].
  cbn [fst] in H. apply totals_agree_put; [done|].
  destruct (negb _); [by apply totals_agree_put|done].
Qed.

(** X10: when the queue of a run is drained into a display whose totals
    and log were reset, as they are when a conversion starts, the display
    shows the worker's counters, the log area holds the log texts of the
    run in order, and the progress bar was stepped once per progress
    event; the start and stop buttons end disabled and the select button
    enabled, whatever they were, and the other controls are as before. *)
Theorem display_after_run (w : world) (items : list string) c
    (steps shown : nat) :
  let r := run_conversion w items in
  let cd := process_gui_queue c (Display 0 0 [] steps shown) (gui_queue r) in
  success_label cd.2 = success_count r /\
  fail_label cd.2 = fail_count r /\
  log_area cd.2 = logs (gui_queue r) /\
  stepped cd.2 = steps + progress_value (gui_queue r) /\
  cd.1 = Controls (lock_button c) true false false (click_bound c)
                  (selected_label c) (progress_maximum c).
Proof.
  intros r cd.
  destruct (process_gui_queue_display (gui_queue r) c
              (Display 0 0 [] steps shown)) as (Hs & Hf & Hl & Hp).
  cbn [success_label fail_label log_area stepped app] in *.
  pose proof (totals_agree_run w items) as Ht. fold r in Ht.
  unfold totals_agree in Ht. rewrite Ht in Hs, Hf.
  split; [done|]. split; [done|]. split; [done|]. split; [done|].
  subst cd. unfold r at 1, run_conversion.
  destruct (conversion_loop w items 0 init_worker) as [st reads].
  set (st' := if negb _ then _ else _).
  unfold put at 1. cbn [gui_queue]. rewrite process_gui_queue_snoc.
  destruct (process_gui_queue_controls (gui_queue st') c
              (Display 0 0 [] steps shown)) as (H1 & H2 & H3 & H4).
  destruct (process_gui_queue c _ (gui_queue st')) as [c' d'].
  cbn [fst process_gui_event] in *. by rewrite H1, H2, H3, H4.
Qed.

End Drain.

(** ** The phases of the controls *)

Section Phases.

Variable basename : string -> string.
Variable isfile : string -> bool.

Implicit Types (a : app_state) (c : controls) (x : action).

Lemma one_phase_process_gui_queue q : forall c d,
  one_phase c -> one_phase (process_gui_queue c d q).1.
Proof.
  induction q as [|e q IH] using rev_ind; intros c d Hc; [done|].
  rewrite process_gui_queue_snoc. specialize (IH c d Hc).
  destruct (process_gui_queue c d q) as [c' d']. cbn [fst] in *.
  destruct e; try done. cbn [process_gui_event fst].
  destruct IH as (Hlock & _ & _). unfold one_phase.
  cbn [lock_button start_button stop_button select_button click_bound].
  split; [|done]. intros Hl. by destruct (Hlock Hl) as (_ & _ & ->).
Qed.

Lemma one_phase_step a x :
  one_phase (app_controls a) ->
  one_phase (app_controls (app_step basename isfile a x)).
Proof.
  intros Ha. destruct x; cbn [app_step].
  - destruct selected_dir; [|done]. by cbn.
  - destruct confirm; [|done]. by cbn.
  - destruct (select_button (app_controls a)); [|done].
    destruct selected_dir; [|done]. by cbn.
  - destruct (lock_button (app_controls a)) eqn:Hl; [|done].
    unfold app_lock, lock_selection. cbn [app_controls].
    destruct (get_checked_items isfile (app_tree a)); [done|].
    destruct Ha as (Hlock & _ & _). destruct (Hlock Hl) as (_ & Hs & _).
    unfold one_phase.
    cbn [lock_button start_button stop_button select_button click_bound].
    by rewrite Hs.
  - destruct (start_button (app_controls a)); [|done].
    unfold app_start, on_start_conversion.
    destruct (get_checked_items isfile (app_tree a)); [done|].
    destruct confirm; [|done]. destruct dest_dir; [|done]. by cbn.
  - destruct (stop_button (app_controls a)); [|done]. by cbn.
  - by destruct (click_bound (app_controls a)).
  - by destruct (on_treeview_open start_ok (app_tree a) node) as [[t r] ev].
  - by destruct (process_tree_entry basename (app_tree a) e).
  - done.
  - unfold app_gui_tick.
    pose proof (one_phase_process_gui_queue (gui_pending a) (app_controls a)
                  (app_display a) Ha) as H.
    by destruct (process_gui_queue _ _ _) as [c d].
Qed.

Lemma started_step a x :
  Forall (fun args => args.1 <> []) (started a) ->
  Forall (fun args => args.1 <> []) (started (app_step basename isfile a x)).
Proof.
  intros Ha. destruct x; cbn [app_step].
  - by destruct selected_dir.
  - by destruct confirm.
  - destruct (select_button (app_controls a)); [|done].
    by destruct selected_dir.
  - by destruct (lock_button (app_controls a)).
  - destruct (start_button (app_controls a)); [|done].
    unfold app_start, on_start_conversion.
    destruct (get_checked_items isfile (app_tree a)) as [|f l] eqn:Hsel;
      [done|].
    destruct confirm; [|done]. destruct dest_dir; [|done].
    cbn [negb started]. apply Forall_app. split; [done|]. by constructor.
  - by destruct (stop_button (app_controls a)).
  - by destruct (click_bound (app_controls a)).
  - by destruct (on_treeview_open start_ok (app_tree a) node) as [[t r] ev].
  - by destruct (process_tree_entry basename (app_tree a) e).
  - done.
  - unfold app_gui_tick. by destruct (process_gui_queue _ _ _) as [c d].
Qed.

(** X12: whatever the user and the threads do, from the start of the
    application on, the controls are in one phase at a time: of the lock,
    start and stop buttons at most one is enabled, and while the start
    button is enabled the select button is disabled and clicks in the
    tree are not bound, so that a click leaves the application as it is.
    Every conversion thread was started with a list of files that is not
    empty. *)
Theorem controls_in_one_phase (xs : list action) :
  let a := app_run basename isfile init_app xs in
  one_phase (app_controls a) /\
  (start_button (app_controls a) = true ->
   forall item, app_step basename isfile a (Tree_click item) = a) /\
  Forall (fun args => args.1 <> []) (started a).
Proof.
  cbn zeta.
  assert (forall a,
            one_phase (app_controls a) /\
            Forall (fun args => args.1 <> []) (started a) ->
            one_phase (app_controls (app_run basename isfile a xs)) /\
            Forall (fun args => args.1 <> [])
                   (started (app_run basename isfile a xs))) as Hrun.
  { induction xs as [|x xs' IH]; intros a Ha; [done|].
    cbn [app_run fold_left]. apply IH. destruct Ha as [H1 H2].
    split; [by apply one_phase_step|by apply started_step]. }
  destruct (Hrun init_app) as [Hphase Hstarted].
  { split; [|done]. unfold one_phase. by cbn. }
  split; [done|]. split; [|done].
  intros Hs item. cbn [app_step].
  destruct Hphase as (_ & Hstart & _). destruct (Hstart Hs) as (_ & -> & _).
  done.
Qed.

End Phases.

(** ** From the choice of a folder to the selection *)

Section EndToEnd.

Variable basename : string -> string.
Variable isfile : string -> bool.

Lemma drain_under_root (queue : list tree_entry) : forall s vs tg cs,
  Forall (fun x => te_parent x = [0]) queue ->
  process_tree_queue basename (Item [] [] [] [Item s vs tg cs]) queue =
  (Item [] [] [] [Item s vs tg (cs ++ (new_item basename <$> queue))], [], []).
Proof.
  induction queue as [|e queue IH]; intros s vs tg cs Hq.
  - cbn. by rewrite app_nil_r.
  - apply Forall_cons in Hq as [He Hq]. cbn [process_tree_queue fmap list_fmap].
    destruct e as [k path parent]. cbn [te_parent] in He. subst parent.
    assert (process_tree_entry basename (Item [] [] [] [Item s vs tg cs])
              (Tree_entry k path [0]) =
            Some (Item [] [] []
                    [Item s vs tg
                       (cs ++ [new_item basename (Tree_entry k path [0])])]))
      as ->.
    { destruct k.
      - by rewrite (process_tree_entry_directory _ _ _ _ (Item s vs tg cs)).
      - done. }
    rewrite IH by done. by rewrite <-app_assoc.
Qed.

Lemma selection_of_checked_new_items (queue : list tree_entry) :
  omap (selected_path isfile)
       (flat_map visit
          (update_child to_checked <$> (new_item basename <$> queue))) =
  filter (fun a => selectable isfile a = true) (te_path <$> queue).
Proof.
  induction queue as [|e queue IH]; [done|].
  cbn [fmap list_fmap flat_map]. rewrite omap_app, IH, filter_cons.
  destruct e as [[|] path parent]; unfold new_item; cbn [te_kind te_path];
    rewrite update_child_unfold; cbn [text_of values tags children];
    rewrite (has_checkbox_box_of to_unchecked);
    cbn [visit values children fmap list_fmap flat_map app omap list_omap
         selected_path tags update_child text_of];
    unfold selectable;
    change (bool_decide (checked ∈ [tag_of to_checked])) with true;
    cbn [andb];
    destruct (isfile path && negb (endswith path ".pdf")); done.
Qed.

(** X11: a folder is chosen, its node expanded, the scan runs to the end
    with no entry raising, its items are ingested, and the node of the
    folder is clicked.  Then the expansion asked for one scan of the
    folder, the queue was emptied without an error, and the selection
    holds, in the order of the listing, the paths of the entries that are
    directories or regular files for which [os.path.isfile] answers yes
    and that do not end in [.pdf], after the folder itself if it passes
    the same test. *)
Theorem selection_after_expand_and_check (root_dir : string)
    (entries : list dir_entry) (stop_is_set : nat -> bool) :
  (forall j, j < length entries -> stop_is_set j = false) ->
  Forall (fun e => entry_raises e = None) entries ->
  exists t1 t2 queue,
    on_treeview_open true (populate_treeview basename root_dir) [0] =
      (t1, Some (root_dir, [0]), []) /\
    (scan_and_enqueue_children stop_is_set [0] root_dir (Ok entries)).1 =
      queue /\
    queue = omap (entry_of [0]) entries /\
    process_tree_queue basename t1 queue = (t2, [], []) /\
    get_checked_items isfile (on_treeview_click t2 [0]) =
      filter (fun a => selectable isfile a = true)
             (root_dir :: (te_path <$> queue)).
Proof.
  intros Hstop Hraise.
  pose proof (scan_until_stopped stop_is_set [0] root_dir entries
                (length entries)) as Hscan.
  rewrite firstn_all in Hscan.
  specialize (Hscan (le_n _) Hstop).
  rewrite Hscan by (done || lia). clear Hscan.
  pose proof (entry_of_parent [0] entries) as Hparents.
  set (root_name := if String.eqb (basename root_dir) "" then root_dir
                    else basename root_dir).
  set (queue := omap (entry_of [0]) entries) in *.
  exists (Item [] [] []
            [Item (box_unchecked ++ u root_name) [root_dir] [unchecked] []]),
    (Item [] [] []
       [Item (box_unchecked ++ u root_name) [root_dir] [unchecked]
             (new_item basename <$> queue)]), queue.
  split; [done|]. split; [done|]. split; [done|].
  split; [by rewrite drain_under_root|].
  set (R := Item (box_unchecked ++ u root_name) [root_dir] [unchecked]
                 (new_item basename <$> queue)).
  assert (on_treeview_click (Item [] [] [] [R]) [0] =
          Item [] [] [] [update_child to_checked R]) as ->.
  { unfold on_treeview_click.
    change (tree_item (Item [] [] [] [R]) [0]) with (Some R).
    cbv beta iota.
    change (click_target (text_of R)) with (Some to_checked).
    cbv beta iota zeta.
    by rewrite (click_cascade (Item [] [] [] [R]) [0] R to_checked). }
  rewrite get_checked_items_visit. cbn [children flat_map].
  rewrite app_nil_r, update_child_unfold.
  change (has_checkbox (text_of R)) with true. cbn iota.
  cbn [visit values children].
  change (values R) with [root_dir]. cbv beta iota.
  change (children R) with (new_item basename <$> queue).
  cbn [omap list_omap].
  rewrite selection_of_checked_new_items, filter_cons.
  unfold selected_path. cbn [values tags].
  change (bool_decide (checked ∈ [tag_of to_checked])) with true. cbn [andb].
  change (isfile root_dir && negb (endswith root_dir ".pdf"))
    with (selectable isfile root_dir).
  destruct (selectable isfile root_dir); done.
Qed.

End EndToEnd.

Lemma selection_after_expand_and_check_witness :
  let entries := [Dir_entry "R/D" (Ok true) (Ok false);
                  Dir_entry "R/link" (Ok false) (Ok false);
                  Dir_entry "R/c.pdf" (Ok false) (Ok true);
                  Dir_entry "R/z.py" (Ok false) (Ok true)] in
  let isfile := fun a => bool_decide (a ∈ ["R/c.pdf"; "R/z.py"]) in
  (forall j, j < length entries -> (fun _ : nat => false) j = false) /\
  Forall (fun e => entry_raises e = None) entries /\
  exists t1 t2 queue,
    on_treeview_open true (populate_treeview posix_basename "R") [0] =
      (t1, Some ("R", [0]), []) /\
    (scan_and_enqueue_children (fun _ => false) [0] "R" (Ok entries)).1 =
      queue /\
    queue = omap (entry_of [0]) entries /\
    process_tree_queue posix_basename t1 queue = (t2, [], []) /\
    get_checked_items isfile (on_treeview_click t2 [0]) =
      filter (fun a => selectable isfile a = true)
             ("R" :: (te_path <$> queue)).
Proof.
  intros entries isfile.
  assert (forall j, j < length entries -> (fun _ : nat => false) j = false)
    as H1 by reflexivity.
  assert (Forall (fun e => entry_raises e = None) entries) as H2
    by (repeat constructor).
  split; [exact H1|]. split; [exact H2|].
  exact (selection_after_expand_and_check posix_basename isfile "R" entries
           (fun _ => false) H1 H2).
Defined.

(** ** The stop flag *)

Section StopFlag.

Variable basename : string -> string.
Variable isfile : string -> bool.

Lemma stop_event_step (a : app_state) (x : action) :
  x <> Button_stop ->
  stop_event a = false ->
  stop_event (app_step basename isfile a x) = false.
Proof.
  intros Hx Ha. destruct x; cbn [app_step].
  - by destruct selected_dir.
  - by destruct confirm.
  - destruct (select_button (app_controls a)); [|done].
    by destruct selected_dir.
  - by destruct (lock_button (app_controls a)).
  - destruct (start_button (app_controls a)); [|done].
    unfold app_start.
    by destruct (on_start_conversion _ _ _ _ _) as [c [args|]].
  - done.
  - by destruct (click_bound (app_controls a)).
  - by destruct (on_treeview_open start_ok (app_tree a) node) as [[t r] ev].
  - by destruct (process_tree_entry basename (app_tree a) e).
  - done.
  - unfold app_gui_tick. by destruct (process_gui_queue _ _ _) as [c d].
Qed.

(** X13: only the stop button sets the stop flag.  As long as the stop
    button is not pressed the flag stays clear, whatever else is done: in
    particular choosing another folder or restarting from the menu while
    a conversion runs does not ask the worker to stop. *)
Theorem only_stop_button_sets_flag (xs : list action) :
  Forall (fun x => x <> Button_stop) xs ->
  stop_event (app_run basename isfile init_app xs) = false.
Proof.
  assert (forall a, Forall (fun x => x <> Button_stop) xs ->
                    stop_event a = false ->
                    stop_event (app_run basename isfile a xs) = false) as H.
  { induction xs as [|x xs' IH]; intros a Hxs Ha; [done|].
    apply Forall_cons in Hxs as [Hx Hxs]. cbn [app_run fold_left].
    apply IH; [done|]. by apply stop_event_step. }
  intros Hxs. by apply H.
Qed.

End StopFlag.

Lemma only_stop_button_sets_flag_witness :
  let xs := [Menu_select_folder (Some "R"); Tree_click [0]; Button_lock;
             Button_start true (Some "out"); Menu_restart true] in
  Forall (fun x => x <> Button_stop) xs /\
  stop_event (app_run posix_basename (fun _ => true) init_app xs) = false.
Proof.
  intros xs.
  assert (Forall (fun x => x <> Button_stop) xs) as H
    by (repeat constructor; discriminate).
  split; [exact H|].
  exact (only_stop_button_sets_flag posix_basename (fun _ => true) xs H).
Defined.
